(** * ABI analyses: the UsedArgumentsOfFunction monotone-framework instance

    Shallow embedding of
    - [include/revng/ABIAnalyses/Common.h]: the instruction classifier
      ([ABIAnalysis]) and the generic map-level [combineValues] /
      [isLessOrEqual] / [getOrDefault];
    - the generated [UsedArgumentsOfFunction] header: [CoreLattice] and
      [MFI<isForward>::applyTransferFunction];
    - the pure helpers of the driver script [scripts/revng]: [interleave],
      [split_dash_dash] and [get_architecture].

    Pointers are modelled by their addresses ([positive]); an
    [llvm::DenseMap] keyed by [const GlobalVariable *] is a [gmap]; a
    dereference of a null pointer or of [end()] is an explicit [Fault]. *)

From stdpp Require Import base option list gmap strings.
From Stdlib.Strings Require Byte.

(** ** Executions that may hit undefined behaviour *)

Inductive Crash :=
| NullDeref   (* [p->...] with [p == nullptr] *)
| EndDeref    (* [*it] with [it == end()] *)
| OutOfRange. (* [v[i]] with [i >= v.size()] *)

Inductive exec (A : Type) :=
| Ret (a : A)
| Fault (c : Crash).
Arguments Ret {A} a.
Arguments Fault {A} c.

#[global] Instance exec_ret : MRet exec := λ A a, Ret a.

#[global] Instance exec_bind : MBind exec := λ A B k m,
  match m with
  | Ret a => k a
  | Fault c => Fault c
  end.

Definition returns {A} (m : exec A) : Prop := ∃ a, m = Ret a.

(** ** [enum TransferKind] *)

Module TransferKind.
Inductive t :=
| Read
| Write
| WeakWrite
| TheCall
| None
(* legacy transfer functions *)
| ReturnFromYes
| ReturnFromMaybe
| ReturnFromNoOrDead
| ReturnFromUnknown
| UnknownFunctionCall.
End TransferKind.
Abbreviation TransferKind := TransferKind.t.

(** ** [struct CoreLattice] *)

Module CoreLattice.

Inductive LatticeElement := Maybe | Unknown | Yes.

#[export] Instance LatticeElement_eq_dec : EqDecision LatticeElement.
Proof. solve_decision. Defined.

Definition DefaultLatticeElement : LatticeElement := Maybe.

(* The C++ [==] on enumerators. *)
Definition eqb (a b : LatticeElement) : bool := bool_decide (a = b).

Definition isLessOrEqual (Lh Rh : LatticeElement) : bool :=
  eqb Lh Rh
  || (eqb Lh Maybe && eqb Rh Yes)
  || (eqb Lh Unknown && eqb Rh Maybe)
  || (eqb Lh Unknown && eqb Rh Yes).

Definition combineValues (Lh Rh : LatticeElement) : LatticeElement :=
  if (eqb Lh Maybe && eqb Rh Unknown) || (eqb Lh Unknown && eqb Rh Maybe)
  then Maybe
  else if (eqb Lh Maybe && eqb Rh Yes)
          || (eqb Lh Unknown && eqb Rh Yes)
          || (eqb Lh Yes && eqb Rh Maybe)
          || (eqb Lh Yes && eqb Rh Unknown)
  then Yes
  else Lh.

(* The inner [default: return E] branches are unreachable for the three
   enumerators; the outer [default] covers every other [TransferKind]. *)
Definition transfer (T : TransferKind) (E : LatticeElement) : LatticeElement :=
  match T with
  | TransferKind.Read =>
      match E with
      | Maybe => Yes
      | Yes => Yes
      | Unknown => Unknown
      end
  | TransferKind.WeakWrite =>
      match E with
      | Maybe => Unknown
      | Yes => Yes
      | Unknown => Unknown
      end
  | TransferKind.Write =>
      match E with
      | Maybe => Unknown
      | Yes => Yes
      | Unknown => Unknown
      end
  | _ => E
  end.

End CoreLattice.

Import CoreLattice.

(** ** The map lattice of [Common.h] *)

(* [const llvm::GlobalVariable *], compared by address. *)
Abbreviation GlobalVariable := positive.

(* [MFI::LatticeElement = DenseMap<const GlobalVariable *, CoreLattice::LatticeElement>] *)
Abbreviation LatticeMap := (gmap GlobalVariable CoreLattice.LatticeElement).

Definition getOrDefault (S : LatticeMap) (K : GlobalVariable) : LatticeElement :=
  match S !! K with
  | Some V => V
  | None => DefaultLatticeElement
  end.

(* One iteration of the loop body of the map-level [combineValues]:
   [New[Reg] = CoreLattice::combineValues(getOrDefault(New, Reg), getOrDefault(Rh, Reg))].
   Should [New[Reg]] be evaluated first and insert a value-initialised
   entry, that entry is [Maybe], the default [getOrDefault] returns for an
   absent key: both evaluation orders store the same value. *)
Definition combineStep (Rh New : LatticeMap)
    (entry : GlobalVariable * LatticeElement) : LatticeMap :=
  let Reg := entry.1 in
  <[Reg := CoreLattice.combineValues (getOrDefault New Reg) (getOrDefault Rh Reg)]> New.

(* The loop [for (const auto &[Reg, S] : Rh)] run over a given enumeration
   of the entries of [Rh]. *)
Definition combineLoop (Rh : LatticeMap)
    (entries : list (GlobalVariable * LatticeElement)) (New : LatticeMap) : LatticeMap :=
  foldl (combineStep Rh) New entries.

(* A [DenseMap] is iterated in bucket order; [map_to_list] stands for that
   enumeration.  [combineLoop_lookup] and [lessOrEqualLoop_true] below hold
   for every duplicate-free enumeration, so no result depends on it. *)
Definition combineValues (Lh Rh : LatticeMap) : LatticeMap :=
  combineLoop Rh (map_to_list Rh) Lh.

(* A [for] loop of [isLessOrEqual]: [false] when the body executed
   [return false], [true] when the loop ran to its end. *)
Fixpoint lessOrEqualLoop (Lh Rh : LatticeMap)
    (entries : list (GlobalVariable * LatticeElement)) : bool :=
  match entries with
  | [] => true
  | (Reg, _) :: rest =>
      if negb (CoreLattice.isLessOrEqual (getOrDefault Lh Reg) (getOrDefault Rh Reg))
      then false
      else lessOrEqualLoop Lh Rh rest
  end.

Definition isLessOrEqual (Lh Rh : LatticeMap) : bool :=
  if lessOrEqualLoop Lh Rh (map_to_list Lh)
  then
    if lessOrEqualLoop Lh Rh (map_to_list Rh)
    then true
    else false
  else false.

(** ** The LLVM objects the classifier inspects *)

(* [llvm::Value]: [dyn_cast<GlobalVariable>] succeeds exactly on
   [VGlobalVariable]. *)
Inductive Value :=
| VGlobalVariable (G : GlobalVariable)
| VOther (addr : positive).

(* What [getOpcode()] and the casts expose of an instruction.
   [Call CalledFunction]: [CalledFunction] is the name of
   [getCalledFunction()], [None] when that is [nullptr] (indirect call). *)
Inductive InstKind :=
| Store (PointerOperand : Value)
| Load (PointerOperand : Value)
| Call (CalledFunction : option string)
| PHI
| Other.

(* [const llvm::Instruction *]: [address] is the pointer itself. *)
Record Instruction := mkInstruction {
  address : positive;
  kind : InstKind
}.

(* [const llvm::BasicBlock *]: its instruction list, in execution order. *)
Abbreviation BasicBlock := (list Instruction).

(* LLVM's [BasicBlock::getFirstInsertionPt()] on a block without
   exception-handling pads: the first instruction that is not a PHI node,
   [end()] (here [None]) when there is none. *)
Fixpoint getFirstInsertionPt (B : BasicBlock) : option Instruction :=
  match B with
  | [] => None
  | Inst :: rest =>
      match kind Inst with
      | PHI => getFirstInsertionPt rest
      | _ => Some Inst
      end
  end.

(** ** [struct ABIAnalysis] *)

Record ABIAnalysis := mkABIAnalysis {
  ABIRegisters : gset GlobalVariable;
  RegisterList : list GlobalVariable;
  CallSite : option positive (* [None] is [nullptr] *)
}.

(* The constructor [ABIAnalysis(CS, GCBI)]; [abiRegisters] is
   [GCBI.abiRegisters()], whose null entries are skipped. *)
Definition newABIAnalysis (CS : option positive)
    (abiRegisters : list (option GlobalVariable)) : ABIAnalysis :=
  foldl (λ A CSV,
           match CSV with
           | Some G =>
               {| ABIRegisters := {[G]} ∪ ABIRegisters A;
                  RegisterList := RegisterList A ++ [G];
                  CallSite := CallSite A |}
           | None => A
           end)
        {| ABIRegisters := ∅; RegisterList := []; CallSite := CS |}
        abiRegisters.

Definition getRegisters (A : ABIAnalysis) : list GlobalVariable := RegisterList A.

Definition isABIRegister (A : ABIAnalysis) (V : Value) : bool :=
  match V with
  | VGlobalVariable G => bool_decide (G ∈ ABIRegisters A)
  | VOther _ => false
  end.

Definition isCallSiteBlock (B : BasicBlock) : exec bool :=
  match getFirstInsertionPt B with
  | None => Fault EndDeref
  | Some First =>
      match kind First with
      | Call CalledFunction =>
          match CalledFunction with
          | None => Fault NullDeref
          | Some Name => Ret (bool_decide (Name = "precall_hook"))
          end
      | _ => Ret false
      end
  end.

(* [Parent] is [I->getParent()]. *)
Definition classifyInstruction (A : ABIAnalysis) (Parent : BasicBlock)
    (I : Instruction) : exec TransferKind :=
  match kind I with
  | Store PointerOperand =>
      if isABIRegister A PointerOperand
      then
        b ← isCallSiteBlock Parent;
        if b : bool then Ret TransferKind.WeakWrite else Ret TransferKind.Write
      else Ret TransferKind.None
  | Load PointerOperand =>
      if isABIRegister A PointerOperand
      then Ret TransferKind.Read
      else Ret TransferKind.None
  | Call _ =>
      if bool_decide (Some (address I) = CallSite A)
      then Ret TransferKind.TheCall
      else Ret TransferKind.None
  | _ => Ret TransferKind.None
  end.

Definition getRegistersWritten (A : ABIAnalysis) (I : Instruction)
    : list GlobalVariable :=
  match kind I with
  | Store (VGlobalVariable G as PointerOperand) =>
      if isABIRegister A PointerOperand then [G] else []
  | _ => []
  end.

Definition getRegistersRead (A : ABIAnalysis) (I : Instruction)
    : list GlobalVariable :=
  match kind I with
  | Load (VGlobalVariable G as PointerOperand) =>
      if isABIRegister A PointerOperand then [G] else []
  | _ => []
  end.

(** ** [MFI<isForward>::applyTransferFunction] *)

(* [New[Reg] = CoreLattice::transfer(T, getOrDefault(New, Reg))] for each
   [Reg] of [Regs], in order. *)
Definition updateRegisters (T : TransferKind) (Regs : list GlobalVariable)
    (New : LatticeMap) : LatticeMap :=
  foldl (λ New Reg, <[Reg := CoreLattice.transfer T (getOrDefault New Reg)]> New)
        New Regs.

(* The body of the loop over [InsList], for the instruction [I] of block [L]. *)
Definition transferInstruction (A : ABIAnalysis) (L : BasicBlock)
    (New : LatticeMap) (I : Instruction) : exec LatticeMap :=
  T ← classifyInstruction A L I;
  Ret match T with
      | TransferKind.TheCall => updateRegisters TransferKind.TheCall (getRegisters A) New
      | TransferKind.Read => updateRegisters T (getRegistersRead A I) New
      | TransferKind.WeakWrite
      | TransferKind.Write => updateRegisters T (getRegistersWritten A I) New
      | _ => New
      end.

(* [InsList[n]] *)
Definition at_index (InsList : list Instruction) (n : nat) : exec Instruction :=
  match InsList !! n with
  | Some Inst => Ret Inst
  | None => Fault OutOfRange
  end.

Definition applyTransferFunction (isForward : bool) (A : ABIAnalysis)
    (L : BasicBlock) (E : LatticeMap) : exec LatticeMap :=
  let InsList := L in
  foldl (λ (acc : exec LatticeMap) (i : nat),
           New ← acc;
           I ← at_index InsList (if isForward then i else length InsList - i - 1);
           transferInstruction A L New I)
        (Ret E)
        (seq 0 (length InsList)).

(** ** The hooks of a call-site block ([Common.h]) *)

Definition getPreCallHook (B : BasicBlock) : exec (option Instruction) :=
  b ← isCallSiteBlock B;
  if b : bool
  then match getFirstInsertionPt B with
       | Some First => Ret (Some First)
       | None => Fault EndDeref
       end
  else Ret None.

(* LLVM's [BasicBlock::getTerminator()]: the last instruction when it is a
   terminator, [nullptr] otherwise.  Stores, loads, calls and PHI nodes are
   never terminators; [isTerminator] tells it for the other opcodes. *)
Definition getTerminator (isTerminator : Instruction → bool) (B : BasicBlock)
    : option Instruction :=
  match last B with
  | Some Inst =>
      match kind Inst with
      | Other => if isTerminator Inst then Some Inst else None
      | _ => None
      end
  | None => None
  end.

(* LLVM's [getPrevNode()] on the last instruction of [B]: the instruction
   before it, [nullptr] when it is also the first. *)
Definition prevOfLast (B : BasicBlock) : option Instruction :=
  match length B with
  | S (S n) => B !! n
  | _ => None
  end.

Definition getPostCallHook (isTerminator : Instruction → bool) (B : BasicBlock)
    : exec (option Instruction) :=
  b ← isCallSiteBlock B;
  if b : bool
  then match getTerminator isTerminator B with
       | Some _ => Ret (prevOfLast B)
       | None => Fault NullDeref
       end
  else Ret None.

(** ** Spec-level readings used by the statements *)

(** The spec's reading of a call-site block: its first executable
    instruction calls the marker [precall_hook]. *)
Definition specCallSiteBlock (B : BasicBlock) : bool :=
  match getFirstInsertionPt B with
  | Some First =>
      match kind First with
      | Call (Some Name) => bool_decide (Name = "precall_hook")
      | _ => false
      end
  | None => false
  end.

(** The spec's precondition: the first instruction of a call-site block has
    a statically resolvable call target. *)
Definition specWellFormedBlock (B : BasicBlock) : Prop :=
  specCallSiteBlock B = true →
  ∃ First Name, getFirstInsertionPt B = Some First ∧ kind First = Call (Some Name).

(** The spec's classifier, clause by clause. *)
Definition specClassify (A : ABIAnalysis) (Parent : BasicBlock)
    (I : Instruction) : TransferKind :=
  match kind I with
  | Store PointerOperand =>
      if isABIRegister A PointerOperand
      then if specCallSiteBlock Parent
           then TransferKind.WeakWrite
           else TransferKind.Write
      else TransferKind.None
  | Load PointerOperand =>
      if isABIRegister A PointerOperand then TransferKind.Read else TransferKind.None
  | Call _ =>
      if bool_decide (CallSite A = Some (address I))
      then TransferKind.TheCall
      else TransferKind.None
  | _ => TransferKind.None
  end.

(** What the code needs instead: the first executable instruction exists
    and, when it is a call, names its callee. *)
Definition firstCallResolved (B : BasicBlock) : bool :=
  match getFirstInsertionPt B with
  | Some First =>
      match kind First with
      | Call None => false
      | _ => true
      end
  | None => false
  end.

(* A load or a store whose pointer operand is a tracked register. *)
Definition touchesTrackedRegister (A : ABIAnalysis) (I : Instruction) : bool :=
  match kind I with
  | Store PointerOperand | Load PointerOperand => isABIRegister A PointerOperand
  | _ => false
  end.

(* The instruction is a call and is the analysis' distinguished call. *)
Definition isTheCall (A : ABIAnalysis) (I : Instruction) : bool :=
  match kind I with
  | Call _ => bool_decide (Some (address I) = CallSite A)
  | _ => false
  end.

(** ** The block loop as a recursion over the visiting order *)

(* The instructions of [L] in the order [applyTransferFunction] visits them. *)
Definition visitOrder (isForward : bool) (L : BasicBlock) : list Instruction :=
  if isForward then L else reverse L.

(* [transferInstruction] applied along [Is], instructions of the block [L]. *)
Fixpoint transferInstructions (A : ABIAnalysis) (L : BasicBlock)
    (Is : list Instruction) (New : LatticeMap) : exec LatticeMap :=
  match Is with
  | [] => Ret New
  | Inst :: rest =>
      New' ← transferInstruction A L New Inst;
      transferInstructions A L rest New'
  end.

(* Some instruction of [Is] is the distinguished call. *)
Definition hasTheCall (A : ABIAnalysis) (Is : list Instruction) : bool :=
  existsb (isTheCall A) Is.

(** ** Further readings used by the statements *)

(* Position of a lattice value in the chain [Unknown < Maybe < Yes]. *)
Definition rank (v : LatticeElement) : nat :=
  match v with
  | Unknown => 0
  | Maybe => 1
  | Yes => 2
  end.

(* The event a single instruction is for register [k]: [Read] when it
   loads [k], [Write] when it stores to [k], [None] otherwise. *)
Definition accessKind (A : ABIAnalysis) (k : GlobalVariable)
    (I : Instruction) : TransferKind :=
  if bool_decide (k ∈ getRegistersRead A I) then TransferKind.Read
  else if bool_decide (k ∈ getRegistersWritten A I) then TransferKind.Write
  else TransferKind.None.

(* The event of the first instruction of [Is] that loads or stores [k]. *)
Fixpoint firstAccess (A : ABIAnalysis) (k : GlobalVariable)
    (Is : list Instruction) : TransferKind :=
  match Is with
  | [] => TransferKind.None
  | Inst :: rest =>
      match accessKind A k Inst with
      | TransferKind.None => firstAccess A k rest
      | T => T
      end
  end.

(* The registers an instruction assigns in the map: the one it loads or
   stores, and the whole register list when it is the distinguished call. *)
Definition instructionTouches (A : ABIAnalysis) (I : Instruction)
    : gset GlobalVariable :=
  list_to_set (getRegistersRead A I ++ getRegistersWritten A I)
  ∪ (if isTheCall A I then list_to_set (getRegisters A) else ∅).

(* The registers the instructions of a block assign in the map. *)
Definition touchedRegisters (A : ABIAnalysis) (Is : list Instruction)
    : gset GlobalVariable :=
  ⋃ (instructionTouches A <$> Is).

(* Some instruction of [Is] is a store to a tracked register. *)
Definition hasTrackedStore (A : ABIAnalysis) (Is : list Instruction) : bool :=
  existsb (λ Inst, match kind Inst with
                   | Store PointerOperand => isABIRegister A PointerOperand
                   | _ => false
                   end) Is.

(** ** Pure helpers of the driver script [scripts/revng] *)

(* [interleave(base, repeat)]:
   [list(sum(zip([repeat] * len(base), base), ()))]; [sum] appends the
   pairs of [zip] one after the other to the empty tuple. *)
Definition interleave {X} (base : list X) (repeat : X) : list X :=
  foldl (λ acc pair, acc ++ [pair.1; pair.2]) []
        (zip (replicate (length base) repeat) base).

(* The [while] loop of [split_dash_dash]: moves the head of [args] to the
   end of [extra_args] until [args] is empty or starts with [--]; returns
   both lists as the loop leaves them. *)
Fixpoint split_dash_dash_loop (extra_args args : list string)
    : list string * list string :=
  match args with
  | [] => (extra_args, [])
  | arg :: rest =>
      if bool_decide (arg ≠ "--")
      then split_dash_dash_loop (extra_args ++ [arg]) rest
      else (extra_args, args)
  end.

(* [split_dash_dash(args)].  The second component is the caller's list
   itself, emptied of what was moved or dropped. *)
Definition split_dash_dash (args : list string) : list string * list string :=
  match args with
  | [] => ([], [])
  | _ =>
      let '(extra_args, args) := split_dash_dash_loop [] args in
      (* Drop the delimiter *)
      let args := match args with
                  | [] => []
                  | _ :: rest => rest
                  end in
      (extra_args, args)
  end.

(* [binascii.hexlify] of one byte: two lower-case hexadecimal digits. *)
Definition hexlify_byte (b : Byte.byte) : string :=
  let n := N.to_nat (Strings.Byte.to_N b) in
  String.substring (n `div` 16) 1 "0123456789abcdef"
  +:+ String.substring (n `mod` 16) 1 "0123456789abcdef".

Definition hexlify (data : list Byte.byte) : string :=
  foldr (λ b rest, hexlify_byte b +:+ rest) "" data.

(* [file.seek(pos)] followed by [file.read(size)] on a file of the given
   content: fewer bytes than asked for near the end of the file. *)
Definition read_at (content : list Byte.byte) (pos size : nat) : list Byte.byte :=
  take size (drop pos content).

(* The [arch_id] string of [get_architecture]. *)
Definition architecture_id (content : list Byte.byte) : string :=
  hexlify (read_at content 5 1) +:+ hexlify (read_at content 18 2).

(* The [if]/[elif] chain of [get_architecture]; [None] is the final
   [assert False]. *)
Definition architecture_of_id (arch_id : string) : option string :=
  if bool_decide (arch_id = "012800") then Some "arm"
  else if bool_decide (arch_id = "01b700") then Some "aarch64"
  else if bool_decide (arch_id = "010800") then Some "mipsel"
  else if bool_decide (arch_id = "020008") then Some "mips"
  else if bool_decide (arch_id = "013e00") then Some "x86_64"
  else if bool_decide (arch_id = "010300") then Some "i386"
  else if bool_decide (arch_id = "020016") then Some "s390x"
  else if bool_decide (arch_id = "01b700") then Some "aarch64"
  else None.

(* [get_architecture(path)], on the content of the file at [path]. *)
Definition get_architecture (content : list Byte.byte) : option string :=
  architecture_of_id (architecture_id content).

(* Decoder of [hexlify_byte], used to state that it loses nothing. *)
Definition hex_value (c : Ascii.ascii) : N :=
  match String.index 0 (String c "") "0123456789abcdef" with
  | Some i => N.of_nat i
  | None => 0%N
  end.

Definition unhexlify_byte (s : string) : N :=
  match s with
  | String c1 (String c2 _) => (hex_value c1 * 16 + hex_value c2)%N
  | _ => 0%N
  end.

(** * Properties *)

(** ** The per-register lattice *)

Section core_lattice.

Local Ltac by_cases :=
  repeat match goal with x : LatticeElement |- _ => destruct x end;
  simpl; intros; first [reflexivity | discriminate].

Lemma core_isLessOrEqual_refl a : CoreLattice.isLessOrEqual a a = true.
Proof. by_cases. Qed.

Lemma core_isLessOrEqual_trans a b c :
  CoreLattice.isLessOrEqual a b = true →
  CoreLattice.isLessOrEqual b c = true →
  CoreLattice.isLessOrEqual a c = true.
Proof. by_cases. Qed.

Lemma core_isLessOrEqual_antisym a b :
  CoreLattice.isLessOrEqual a b = true →
  CoreLattice.isLessOrEqual b a = true →
  a = b.
Proof. by_cases. Qed.

Lemma core_combineValues_idemp a : CoreLattice.combineValues a a = a.
Proof. by_cases. Qed.

Lemma core_combineValues_default_r a :
  CoreLattice.combineValues a DefaultLatticeElement
  = match a with Unknown => Maybe | _ => a end.
Proof. by_cases. Qed.

Lemma core_combineValues_least a b c :
  CoreLattice.isLessOrEqual a c = true →
  CoreLattice.isLessOrEqual b c = true →
  CoreLattice.isLessOrEqual (CoreLattice.combineValues a b) c = true.
Proof. by_cases. Qed.

(** C3: [combineValues a b] is an upper bound of both [a] and [b] for the
    order [isLessOrEqual], for all lattice values [a] and [b]. *)
Theorem core_combineValues_upper_bound (a b : LatticeElement) :
  CoreLattice.isLessOrEqual a (CoreLattice.combineValues a b) = true
  ∧ CoreLattice.isLessOrEqual b (CoreLattice.combineValues a b) = true.
Proof. destruct a, b; split; reflexivity. Qed.

(** C9: the per-register [combineValues] is commutative: the fallback
    [return Lh] is only reached when both arguments are equal. *)
Theorem core_combineValues_comm (a b : LatticeElement) :
  CoreLattice.combineValues a b = CoreLattice.combineValues b a.
Proof. destruct a, b; reflexivity. Qed.

(** C10: for every transfer kind [T], [transfer T] is monotone:
    [isLessOrEqual a b] implies
    [isLessOrEqual (transfer T a) (transfer T b)]. *)
Theorem core_transfer_monotone (T : TransferKind) (a b : LatticeElement) :
  CoreLattice.isLessOrEqual a b = true →
  CoreLattice.isLessOrEqual (CoreLattice.transfer T a) (CoreLattice.transfer T b) = true.
Proof. destruct T, a, b; simpl; intros H; first [exact H | reflexivity | discriminate H]. Qed.

Lemma core_transfer_monotone_witness :
  CoreLattice.isLessOrEqual Unknown Maybe = true
  ∧ CoreLattice.isLessOrEqual
      (CoreLattice.transfer TransferKind.Read Unknown)
      (CoreLattice.transfer TransferKind.Read Maybe) = true.
Proof.
  split; [reflexivity |].
  apply (core_transfer_monotone TransferKind.Read Unknown Maybe). reflexivity.
Defined.

End core_lattice.

(** ** The map lattice *)

Section map_lattice.

Implicit Types (Lh Rh New M : LatticeMap) (k Reg : GlobalVariable).

Lemma getOrDefault_insert M Reg v k :
  getOrDefault (<[Reg := v]> M) k = if decide (Reg = k) then v else getOrDefault M k.
Proof.
  unfold getOrDefault. rewrite lookup_insert.
  destruct (decide (Reg = k)); reflexivity.
Qed.

Lemma getOrDefault_absent M k : M !! k = None → getOrDefault M k = Maybe.
Proof. unfold getOrDefault. intros ->. reflexivity. Qed.

Lemma getOrDefault_insert_default M Reg k :
  M !! Reg = None → getOrDefault (<[Reg := Maybe]> M) k = getOrDefault M k.
Proof.
  intros Habs. rewrite getOrDefault_insert.
  destruct (decide (Reg = k)) as [<- |]; [| reflexivity].
  symmetry. apply getOrDefault_absent, Habs.
Qed.

Lemma map_to_list_keys M k : k ∈ (map_to_list M).*1 ↔ k ∈ dom M.
Proof.
  rewrite elem_of_dom, list_elem_of_fmap. split.
  - intros [[k' v] [-> Hin]]. apply elem_of_map_to_list in Hin. eauto.
  - intros [v Hv]. exists (k, v). split; [reflexivity |].
    apply elem_of_map_to_list, Hv.
Qed.

(** The loop of [combineValues] touches exactly the enumerated keys, each
    with the join of the running value and the value in [Rh]. *)
Lemma combineLoop_lookup Rh entries New k :
  NoDup entries.*1 →
  combineLoop Rh entries New !! k
  = if decide (k ∈ entries.*1)
    then Some (CoreLattice.combineValues (getOrDefault New k) (getOrDefault Rh k))
    else New !! k.
Proof.
  unfold combineLoop. revert New.
  induction entries as [| [Reg S] rest IH]; intros New Hnd;
    rewrite ?fmap_nil, ?fmap_cons in *; cbn [foldl fst].
  - rewrite decide_False; [reflexivity | apply not_elem_of_nil].
  - apply NoDup_cons in Hnd as [Hfresh Hnd]. rewrite (IH _ Hnd).
    unfold combineStep; cbn [fst].
    destruct (decide (k = Reg)) as [-> | Hne].
    + rewrite (decide_False (P := Reg ∈ rest.*1)) by exact Hfresh.
      rewrite (decide_True (P := Reg ∈ Reg :: rest.*1)) by apply list_elem_of_here.
      apply lookup_insert_eq.
    + rewrite getOrDefault_insert, (decide_False (P := Reg = k)) by congruence.
      rewrite lookup_insert_ne by congruence.
      destruct (decide (k ∈ rest.*1)) as [Hin | Hnin].
      * rewrite decide_True; [reflexivity | by apply list_elem_of_further].
      * rewrite decide_False; [reflexivity |].
        intros [? | ?]%elem_of_cons; contradiction.
Qed.

(** What the map-level [combineValues] stores at each key: the join for
    the keys of [Rh], the entry of [Lh] (or none) elsewhere. *)
Lemma combineValues_lookup Lh Rh k :
  combineValues Lh Rh !! k
  = match Rh !! k with
    | Some _ => Some (CoreLattice.combineValues (getOrDefault Lh k) (getOrDefault Rh k))
    | None => Lh !! k
    end.
Proof.
  unfold combineValues.
  rewrite combineLoop_lookup by apply NoDup_fst_map_to_list.
  destruct (Rh !! k) as [v |] eqn:Hk.
  - rewrite decide_True; [reflexivity |].
    apply map_to_list_keys, elem_of_dom. eauto.
  - rewrite decide_False; [reflexivity |].
    rewrite map_to_list_keys, not_elem_of_dom. exact Hk.
Qed.

(** Read through [getOrDefault], the result is the per-register join at
    every key held by [Rh], and at every key whose value in [Lh] is not
    [Unknown]. *)
Lemma combineValues_getOrDefault Lh Rh k :
  is_Some (Rh !! k) ∨ getOrDefault Lh k ≠ Unknown →
  getOrDefault (combineValues Lh Rh) k
  = CoreLattice.combineValues (getOrDefault Lh k) (getOrDefault Rh k).
Proof.
  intros Hk. unfold getOrDefault at 1. rewrite combineValues_lookup.
  destruct (Rh !! k) as [v |] eqn:HR; [reflexivity |].
  destruct Hk as [[? [=]] | Hk].
  rewrite (getOrDefault_absent Rh k HR).
  fold (getOrDefault Lh k). rewrite core_combineValues_default_r.
  destruct (getOrDefault Lh k); [reflexivity | contradiction | reflexivity].
Qed.

Lemma lessOrEqualLoop_true Lh Rh entries :
  lessOrEqualLoop Lh Rh entries = true
  ↔ ∀ k, k ∈ entries.*1 →
         CoreLattice.isLessOrEqual (getOrDefault Lh k) (getOrDefault Rh k) = true.
Proof.
  induction entries as [| [Reg S] rest IH]; simpl.
  - split; [| reflexivity]. intros _ k Hk. by apply not_elem_of_nil in Hk.
  - destruct (CoreLattice.isLessOrEqual (getOrDefault Lh Reg) (getOrDefault Rh Reg))
      eqn:Hle; simpl.
    + rewrite IH. split.
      * intros Hrest k [-> | Hk]%elem_of_cons; [exact Hle | by apply Hrest].
      * intros Hall k Hk. apply Hall. by apply list_elem_of_further.
    + split; [discriminate |]. intros Hall.
      rewrite <- Hle. apply Hall, list_elem_of_here.
Qed.

Lemma isLessOrEqual_true Lh Rh :
  isLessOrEqual Lh Rh = true
  ↔ ∀ k, k ∈ dom Lh ∪ dom Rh →
         CoreLattice.isLessOrEqual (getOrDefault Lh k) (getOrDefault Rh k) = true.
Proof.
  unfold isLessOrEqual.
  destruct (lessOrEqualLoop Lh Rh (map_to_list Lh)) eqn:H1;
    [destruct (lessOrEqualLoop Lh Rh (map_to_list Rh)) eqn:H2 |].
  - split; [| reflexivity].
    pose proof (proj1 (lessOrEqualLoop_true _ _ _) H1) as H1'.
    pose proof (proj1 (lessOrEqualLoop_true _ _ _) H2) as H2'.
    intros _ k [Hk | Hk]%elem_of_union; [apply H1' | apply H2'];
      by apply map_to_list_keys.
  - split; [discriminate |]. intros Hall. rewrite <- H2.
    apply lessOrEqualLoop_true. intros k Hk%map_to_list_keys.
    apply Hall, elem_of_union_r, Hk.
  - split; [discriminate |]. intros Hall. rewrite <- H1.
    apply lessOrEqualLoop_true. intros k Hk%map_to_list_keys.
    apply Hall, elem_of_union_l, Hk.
Qed.

Lemma isLessOrEqual_pointwise Lh Rh :
  isLessOrEqual Lh Rh = true
  ↔ ∀ k, CoreLattice.isLessOrEqual (getOrDefault Lh k) (getOrDefault Rh k) = true.
Proof.
  rewrite isLessOrEqual_true. split; [| by auto].
  intros Hdom k. destruct (decide (k ∈ dom Lh ∪ dom Rh)) as [Hk | Hk]; [by auto |].
  apply not_elem_of_union in Hk as [HL%not_elem_of_dom HR%not_elem_of_dom].
  rewrite !getOrDefault_absent by assumption. reflexivity.
Qed.

End map_lattice.

Section map_lattice_claims.


(** C8: the map-level [isLessOrEqual M1 M2] returns [true] if and only if
    the per-register [isLessOrEqual] holds between
    [getOrDefault M1 k] and [getOrDefault M2 k] for every key [k] of the
    union of the keys of [M1] and [M2]; a key absent from both maps reads
    as [Maybe] on both sides, and storing [Maybe] under it in both maps
    leaves the answer unchanged. *)
Theorem isLessOrEqual_union_of_keys (M1 M2 : LatticeMap) :
  (isLessOrEqual M1 M2 = true
   ↔ ∀ k : GlobalVariable, k ∈ dom M1 ∪ dom M2 →
          CoreLattice.isLessOrEqual (getOrDefault M1 k) (getOrDefault M2 k) = true)
  ∧ (∀ k, k ∉ dom M1 ∪ dom M2 →
          getOrDefault M1 k = Maybe
          ∧ getOrDefault M2 k = Maybe
          ∧ isLessOrEqual (<[k := Maybe]> M1) (<[k := Maybe]> M2)
            = isLessOrEqual M1 M2).
Proof.
  split; [apply isLessOrEqual_true |].
  intros k [H1%not_elem_of_dom H2%not_elem_of_dom]%not_elem_of_union.
  split; [by apply getOrDefault_absent |].
  split; [by apply getOrDefault_absent |].
  apply eq_true_iff_eq. rewrite !isLessOrEqual_pointwise.
  split; intros Hall k'; specialize (Hall k');
    rewrite !getOrDefault_insert_default in * by assumption; exact Hall.
Qed.

(** C1 (the code departs from the claim): with [M1 = {R1: Unknown}] and
    [M2 = {}], the key [R1] lies in the union of the keys, the per-register
    join of the two readings is [combineValues Unknown Maybe = Maybe], but
    the map-level [combineValues] only visits the keys of [M2], returns
    [M1] unchanged and so reads [Unknown] at [R1]; the result is not even
    above [M2] for the map-level [isLessOrEqual]. *)
Theorem combineValues_skips_left_only_key (R1 : GlobalVariable) :
  let M1 : LatticeMap := {[R1 := Unknown]} in
  let M2 : LatticeMap := ∅ in
  R1 ∈ dom M1 ∪ dom M2
  ∧ CoreLattice.combineValues (getOrDefault M1 R1) (getOrDefault M2 R1) = Maybe
  ∧ combineValues M1 M2 = M1
  ∧ getOrDefault (combineValues M1 M2) R1 = Unknown
  ∧ isLessOrEqual M2 (combineValues M1 M2) = false.
Proof.
  intros M1 M2.
  assert (Hget1 : getOrDefault M1 R1 = Unknown).
  { unfold getOrDefault, M1. by rewrite lookup_singleton_eq. }
  assert (Hcomb : combineValues M1 M2 = M1).
  { unfold combineValues, M2. by rewrite map_to_list_empty. }
  split; [| split; [| split; [| split]]].
  - apply elem_of_union_l, elem_of_dom. unfold M1.
    rewrite lookup_singleton_eq. eauto.
  - rewrite Hget1. reflexivity.
  - exact Hcomb.
  - rewrite Hcomb. exact Hget1.
  - rewrite Hcomb. apply not_true_is_false. intros Hle.
    pose proof (proj1 (isLessOrEqual_pointwise _ _) Hle R1) as Hk.
    rewrite Hget1 in Hk. discriminate Hk.
Qed.

End map_lattice_claims.

(** ** The instruction classifier *)

(** The constructor keeps the set and the list of registers in step. *)
Lemma newABIAnalysis_fields (CS : option positive)
    (abiRegisters : list (option GlobalVariable)) :
  CallSite (newABIAnalysis CS abiRegisters) = CS
  ∧ RegisterList (newABIAnalysis CS abiRegisters) = omap id abiRegisters
  ∧ ∀ G, G ∈ ABIRegisters (newABIAnalysis CS abiRegisters) ↔ Some G ∈ abiRegisters.
Proof.
  unfold newABIAnalysis.
  induction abiRegisters as [| CSV rest IH] using rev_ind.
  - split; [reflexivity |]. split; [reflexivity |].
    intros G. cbn [foldl ABIRegisters]. rewrite elem_of_empty, elem_of_nil. tauto.
  - rewrite foldl_app. cbn [foldl]. destruct IH as (HCS & HRL & HSet).
    rewrite omap_app.
    destruct CSV as [G' |]; cbn [CallSite RegisterList ABIRegisters omap].
    + split; [exact HCS |]. split; [rewrite HRL; reflexivity |].
      intros G. rewrite elem_of_union, elem_of_singleton, HSet, elem_of_app.
      rewrite list_elem_of_singleton. split.
      * intros [-> | H]; [by right | by left].
      * intros [H | [= ->]]; [by right | by left].
    + split; [exact HCS |]. split; [rewrite HRL, app_nil_r; reflexivity |].
      intros G. rewrite HSet, elem_of_app, list_elem_of_singleton.
      split; [by left | intros [H | [=]]; exact H].
Qed.

Section classifier.

Variable A : ABIAnalysis.
Implicit Types (B Parent : BasicBlock) (I : Instruction).

Lemma specWellFormedBlock_always B : specWellFormedBlock B.
Proof.
  unfold specWellFormedBlock, specCallSiteBlock.
  destruct (getFirstInsertionPt B) as [First |]; [| discriminate].
  destruct (kind First) as [| | [Name |] | |] eqn:HF; try discriminate.
  intros _. exists First, Name. by split.
Qed.

Lemma getFirstInsertionPt_is_Some B I :
  I ∈ B → kind I ≠ PHI → is_Some (getFirstInsertionPt B).
Proof.
  induction B as [| J rest IH]; intros Hin HI.
  - by apply not_elem_of_nil in Hin.
  - simpl. apply elem_of_cons in Hin as [<- | Hin].
    + destruct (kind I); eauto. contradiction.
    + destruct (kind J); eauto.
Qed.

Lemma isCallSiteBlock_resolved B :
  firstCallResolved B = true → isCallSiteBlock B = Ret (specCallSiteBlock B).
Proof.
  unfold firstCallResolved, isCallSiteBlock, specCallSiteBlock.
  destruct (getFirstInsertionPt B) as [First |]; [| discriminate].
  destruct (kind First) as [| | [Name |] | |]; (reflexivity || discriminate).
Qed.

(** On a block whose first call is resolved the code agrees with the
    spec's classifier. *)
Lemma classifyInstruction_refines_spec Parent I :
  firstCallResolved Parent = true →
  classifyInstruction A Parent I = Ret (specClassify A Parent I).
Proof.
  intros Hres. unfold classifyInstruction, specClassify.
  destruct (kind I) as [p | p | callee | |]; try reflexivity.
  - destruct (isABIRegister A p); [| reflexivity].
    rewrite (isCallSiteBlock_resolved _ Hres). simpl.
    destruct (specCallSiteBlock Parent); reflexivity.
  - destruct (isABIRegister A p); reflexivity.
  - rewrite (bool_decide_ext (Some (address I) = CallSite A)
                             (CallSite A = Some (address I))) by (split; congruence).
    destruct (bool_decide _); reflexivity.
Qed.

(** Instructions that are not stores to a tracked register never reach
    [isCallSiteBlock], whatever their block. *)
Lemma classifyInstruction_untracked Parent I :
  touchesTrackedRegister A I = false →
  classifyInstruction A Parent I
  = Ret (if isTheCall A I then TransferKind.TheCall else TransferKind.None).
Proof.
  unfold touchesTrackedRegister, classifyInstruction, isTheCall.
  destruct (kind I) as [p | p | callee | |]; intros Hu; rewrite ?Hu; try reflexivity.
  destruct (bool_decide _); reflexivity.
Qed.

End classifier.

(** C2 (the code departs from the claim): take a block whose first
    executable instruction is an indirect call and a store to a tracked
    register in it.  The block is not a call-site block and the spec's
    precondition holds, yet [classifyInstruction] dereferences the null
    [getCalledFunction()] and does not return. *)
Theorem classifyInstruction_faults_outside_call_site
    (A : ABIAnalysis) (B : BasicBlock) (First I : Instruction) (p : Value) :
  I ∈ B →
  getFirstInsertionPt B = Some First →
  kind First = Call None →
  kind I = Store p →
  isABIRegister A p = true →
  specWellFormedBlock B
  ∧ specCallSiteBlock B = false
  ∧ classifyInstruction A B I = Fault NullDeref
  ∧ ¬ returns (classifyInstruction A B I).
Proof.
  intros _ HF Hcall HI Hp.
  assert (Hc : classifyInstruction A B I = Fault NullDeref).
  { unfold classifyInstruction, isCallSiteBlock. by rewrite HI, Hp, HF, Hcall. }
  split; [apply specWellFormedBlock_always |].
  split; [unfold specCallSiteBlock; by rewrite HF, Hcall |].
  split; [exact Hc |].
  rewrite Hc. intros [T [=]].
Qed.

Lemma classifyInstruction_faults_outside_call_site_witness :
  let A := newABIAnalysis None [Some 1%positive] in
  let I := mkInstruction 2 (Store (VGlobalVariable 1)) in
  let B := [mkInstruction 1 (Call None); I] in
  specWellFormedBlock B
  ∧ specCallSiteBlock B = false
  ∧ classifyInstruction A B I = Fault NullDeref
  ∧ ¬ returns (classifyInstruction A B I).
Proof.
  intros A I B.
  apply (classifyInstruction_faults_outside_call_site
           A B (mkInstruction 1 (Call None)) I (VGlobalVariable 1)).
  - apply list_elem_of_further, list_elem_of_here.
  - reflexivity.
  - reflexivity.
  - reflexivity.
  - vm_compute. reflexivity.
Defined.

(** C7 (the code departs from the claim): a store to the tracked register
    [1] in a block that opens with an indirect call is a store in a block
    that is not a call-site block, for which the claim demands [Write];
    the code faults on the null callee instead of returning [Write]. *)
Theorem classifyInstruction_store_after_indirect_call :
  let A := newABIAnalysis None [Some 1%positive] in
  let I := mkInstruction 2 (Store (VGlobalVariable 1)) in
  let B := [mkInstruction 1 (Call None); I] in
  I ∈ B
  ∧ isABIRegister A (VGlobalVariable 1) = true
  ∧ specCallSiteBlock B = false
  ∧ specClassify A B I = TransferKind.Write
  ∧ classifyInstruction A B I = Fault NullDeref.
Proof.
  intros A I B.
  split; [apply list_elem_of_further, list_elem_of_here |].
  split; [vm_compute; reflexivity |].
  split; [reflexivity |].
  split; vm_compute; reflexivity.
Qed.

(** ** Block transfer *)

Section block_transfer.

Variable A : ABIAnalysis.
Implicit Types (L : BasicBlock) (I : Instruction) (New E M : LatticeMap)
  (k Reg : GlobalVariable).

(** The indexed loop of [applyTransferFunction] follows [Is] whenever the
    indices it computes enumerate [Is]. *)
Lemma indexed_loop_follows L (g : nat → nat) (Is : list Instruction) :
  ∀ (start : nat) (acc : exec LatticeMap),
    (∀ i, i < length Is → L !! g (start + i) = Is !! i) →
    foldl (λ (acc : exec LatticeMap) (i : nat),
             New ← acc; I ← at_index L (g i); transferInstruction A L New I)
          acc (seq start (length Is))
    = (New ← acc; transferInstructions A L Is New).
Proof.
  induction Is as [| J rest IH]; intros start acc Hidx.
  - simpl. destruct acc; reflexivity.
  - cbn [length seq foldl]. rewrite IH.
    + destruct acc as [New | c]; [| reflexivity]. simpl.
      unfold at_index.
      specialize (Hidx 0 ltac:(simpl; lia)). rewrite Nat.add_0_r in Hidx.
      rewrite Hidx. reflexivity.
    + intros i Hi. replace (S start + i) with (start + S i) by lia.
      apply (Hidx (S i)). simpl. lia.
Qed.

Lemma applyTransferFunction_visitOrder isForward L E :
  applyTransferFunction isForward A L E
  = transferInstructions A L (visitOrder isForward L) E.
Proof.
  unfold applyTransferFunction, visitOrder. destruct isForward.
  - apply (indexed_loop_follows L (λ i, i) L 0 (Ret E)). reflexivity.
  - pose proof (indexed_loop_follows L (λ i, length L - i - 1) (reverse L) 0 (Ret E))
      as Hloop.
    rewrite length_reverse in Hloop. apply Hloop.
    intros i Hi. rewrite reverse_lookup by exact Hi. f_equal. simpl. lia.
Qed.

Lemma updateRegisters_TheCall_lookup Regs New k :
  updateRegisters TransferKind.TheCall Regs New !! k
  = if bool_decide (k ∈ Regs) then Some (getOrDefault New k) else New !! k.
Proof.
  unfold updateRegisters. revert New.
  induction Regs as [| Reg rest IH]; intros New; cbn [foldl].
  - rewrite bool_decide_false; [reflexivity | apply not_elem_of_nil].
  - rewrite IH. cbn [CoreLattice.transfer].
    rewrite getOrDefault_insert, lookup_insert.
    destruct (decide (Reg = k)) as [<- | Hne].
    + rewrite (bool_decide_true (Reg ∈ Reg :: rest)) by apply list_elem_of_here.
      destruct (bool_decide (Reg ∈ rest)); reflexivity.
    + rewrite (bool_decide_ext (k ∈ Reg :: rest) (k ∈ rest)); [reflexivity |].
      rewrite elem_of_cons. split; [| by right].
      intros [-> | Hk]; [contradiction | exact Hk].
Qed.

Lemma updateRegisters_TheCall_getOrDefault Regs New k :
  getOrDefault (updateRegisters TransferKind.TheCall Regs New) k = getOrDefault New k.
Proof.
  unfold getOrDefault at 1. rewrite updateRegisters_TheCall_lookup.
  destruct (bool_decide (k ∈ Regs)); reflexivity.
Qed.

(** Along instructions that neither load nor store a tracked register the
    loop always returns, and its result holds the entries of the start map
    plus, when the distinguished call was met, an explicit entry for every
    tracked register carrying the value the start map read there. *)
Lemma transferInstructions_untracked L Is New :
  (∀ I, I ∈ Is → touchesTrackedRegister A I = false) →
  ∃ M, transferInstructions A L Is New = Ret M
       ∧ ∀ k, M !! k = if hasTheCall A Is && bool_decide (k ∈ getRegisters A)
                       then Some (getOrDefault New k)
                       else New !! k.
Proof.
  revert New. induction Is as [| J rest IH]; intros New Hun.
  - exists New. split; reflexivity.
  - cbn [transferInstructions]. unfold transferInstruction.
    rewrite classifyInstruction_untracked by apply Hun, list_elem_of_here.
    assert (Hrest : ∀ I, I ∈ rest → touchesTrackedRegister A I = false).
    { intros I HI. by apply Hun, list_elem_of_further. }
    unfold hasTheCall. cbn [existsb].
    destruct (isTheCall A J); simpl.
    + destruct (IH (updateRegisters TransferKind.TheCall (getRegisters A) New) Hrest)
        as (M & -> & HM).
      exists M. split; [reflexivity |]. intros k. rewrite HM.
      rewrite updateRegisters_TheCall_getOrDefault, updateRegisters_TheCall_lookup.
      destruct (hasTheCall A rest), (bool_decide (k ∈ getRegisters A)); reflexivity.
    + destruct (IH New Hrest) as (M & -> & HM). exists M. by split.
Qed.

Lemma hasTheCall_visitOrder isForward L :
  hasTheCall A (visitOrder isForward L) = hasTheCall A L.
Proof.
  unfold hasTheCall, visitOrder. destruct isForward; [reflexivity |].
  apply eq_true_iff_eq. rewrite !existsb_exists.
  split; intros (I & HI & Hc); exists I; split; try exact Hc;
    apply list_elem_of_In; apply list_elem_of_In in HI;
    by apply elem_of_reverse.
Qed.

End block_transfer.

Section block_transfer_claims.

Local Ltac classify_tracked Htracked :=
  unfold transferInstruction, classifyInstruction, isCallSiteBlock,
    getRegistersRead, getRegistersWritten, isABIRegister;
  cbn [kind address getFirstInsertionPt];
  rewrite ?(bool_decide_true _ Htracked).

Lemma getOrDefault_singleton (Reg : GlobalVariable) (v : LatticeElement) :
  getOrDefault {[Reg := v]} Reg = v.
Proof. unfold getOrDefault. by rewrite lookup_singleton_eq. Qed.

Lemma getOrDefault_empty (Reg : GlobalVariable) : getOrDefault ∅ Reg = Maybe.
Proof. reflexivity. Qed.

(** C5: in the forward direction the block [Load R1; Store R1], started
    from the empty map, yields [{R1: Yes}]: the read promotes [Maybe] to
    [Yes] and the following write leaves [Yes] as it is. *)
Theorem applyTransferFunction_load_then_store
    (A : ABIAnalysis) (R1 : GlobalVariable) (a1 a2 : positive) :
  R1 ∈ ABIRegisters A →
  let L := [mkInstruction a1 (Load (VGlobalVariable R1));
            mkInstruction a2 (Store (VGlobalVariable R1))] in
  applyTransferFunction true A L ∅ = Ret {[R1 := Yes]}
  ∧ CoreLattice.transfer TransferKind.Read Maybe = Yes
  ∧ CoreLattice.transfer TransferKind.Write Yes = Yes.
Proof.
  intros Htracked L. split; [| split; reflexivity].
  rewrite applyTransferFunction_visitOrder. subst L.
  cbn [visitOrder transferInstructions].
  classify_tracked Htracked. cbn [mbind exec_bind updateRegisters foldl].
  rewrite getOrDefault_empty. cbn [CoreLattice.transfer].
  rewrite insert_empty.
  classify_tracked Htracked. cbn [mbind exec_bind updateRegisters foldl].
  rewrite getOrDefault_singleton. cbn [CoreLattice.transfer].
  rewrite insert_singleton_eq. reflexivity.
Qed.

Lemma applyTransferFunction_load_then_store_witness :
  let A := newABIAnalysis None [Some 1%positive] in
  let L := [mkInstruction 1 (Load (VGlobalVariable 1));
            mkInstruction 2 (Store (VGlobalVariable 1))] in
  1%positive ∈ ABIRegisters A
  ∧ applyTransferFunction true A L ∅ = Ret {[1%positive := Yes]}
  ∧ CoreLattice.transfer TransferKind.Read Maybe = Yes
  ∧ CoreLattice.transfer TransferKind.Write Yes = Yes.
Proof.
  intros A L.
  assert (Htracked : 1%positive ∈ ABIRegisters A) by (vm_compute; reflexivity).
  split; [exact Htracked |].
  exact (applyTransferFunction_load_then_store A 1 1 2 Htracked).
Defined.

(** C4: [Write] and [WeakWrite] have the same transfer rule on every
    lattice value; hence the call-site block
    [precall_hook; Store R1; postcall_hook], whose store is classified
    [WeakWrite], takes [{R1: Maybe}] to [{R1: Unknown}], exactly as the
    same store, classified [Write], does in an ordinary block. *)
Theorem transfer_WeakWrite_same_as_Write
    (isForward : bool) (A : ABIAnalysis) (R1 : GlobalVariable) (a0 a1 a2 : positive) :
  R1 ∈ ABIRegisters A →
  CallSite A ≠ Some a0 →
  CallSite A ≠ Some a2 →
  let store := mkInstruction a1 (Store (VGlobalVariable R1)) in
  let hooked := [mkInstruction a0 (Call (Some "precall_hook"));
                 store;
                 mkInstruction a2 (Call (Some "postcall_hook"))] in
  let plain := [store] in
  (∀ v, CoreLattice.transfer TransferKind.Write v
        = CoreLattice.transfer TransferKind.WeakWrite v)
  ∧ classifyInstruction A hooked store = Ret TransferKind.WeakWrite
  ∧ classifyInstruction A plain store = Ret TransferKind.Write
  ∧ applyTransferFunction isForward A hooked {[R1 := Maybe]} = Ret {[R1 := Unknown]}
  ∧ applyTransferFunction isForward A plain {[R1 := Maybe]} = Ret {[R1 := Unknown]}.
Proof.
  intros Htracked Hpre Hpost store hooked plain.
  assert (Hhook : ∀ a name L New,
             CallSite A ≠ Some a →
             transferInstruction A L New (mkInstruction a (Call (Some name))) = Ret New).
  { intros a name L New Ha. unfold transferInstruction, classifyInstruction.
    cbn [kind address]. rewrite bool_decide_false by congruence. reflexivity. }
  assert (Hweak : ∀ New,
             transferInstruction A hooked New store
             = Ret (<[R1 := CoreLattice.transfer TransferKind.WeakWrite
                              (getOrDefault New R1)]> New)).
  { intros New. subst hooked store. classify_tracked Htracked. reflexivity. }
  assert (Hwrite : ∀ New,
             transferInstruction A plain New store
             = Ret (<[R1 := CoreLattice.transfer TransferKind.Write
                              (getOrDefault New R1)]> New)).
  { intros New. subst plain store. classify_tracked Htracked. reflexivity. }
  split; [intros []; reflexivity |].
  split; [subst hooked store; classify_tracked Htracked; reflexivity |].
  split; [subst plain store; classify_tracked Htracked; reflexivity |].
  split; rewrite applyTransferFunction_visitOrder.
  - assert (Hrun : ∀ x y, CallSite A ≠ Some x → CallSite A ≠ Some y →
               transferInstructions A hooked
                 [mkInstruction x (Call (Some "precall_hook")); store;
                  mkInstruction y (Call (Some "postcall_hook"))] {[R1 := Maybe]}
               = Ret {[R1 := Unknown]}
               ∧ transferInstructions A hooked
                 [mkInstruction y (Call (Some "postcall_hook")); store;
                  mkInstruction x (Call (Some "precall_hook"))] {[R1 := Maybe]}
               = Ret {[R1 := Unknown]}).
    { intros x y Hx Hy. cbn [transferInstructions].
      rewrite !Hhook by assumption. cbn [mbind exec_bind].
      rewrite Hweak. cbn [mbind exec_bind].
      rewrite !Hhook by assumption. cbn [mbind exec_bind].
      rewrite getOrDefault_singleton, insert_singleton_eq. by split. }
    destruct isForward; [apply (Hrun a0 a2) | apply (Hrun a0 a2)]; assumption.
  - assert (visitOrder isForward plain = [store]) as -> by (by destruct isForward).
    cbn [transferInstructions]. rewrite Hwrite. cbn [mbind exec_bind].
    rewrite getOrDefault_singleton, insert_singleton_eq. reflexivity.
Qed.

Lemma transfer_WeakWrite_same_as_Write_witness :
  let A := newABIAnalysis None [Some 1%positive] in
  let store := mkInstruction 11 (Store (VGlobalVariable 1)) in
  let hooked := [mkInstruction 10 (Call (Some "precall_hook"));
                 store;
                 mkInstruction 12 (Call (Some "postcall_hook"))] in
  1%positive ∈ ABIRegisters A
  ∧ CallSite A ≠ Some 10%positive
  ∧ CallSite A ≠ Some 12%positive
  ∧ applyTransferFunction true A hooked {[1%positive := Maybe]}
    = Ret {[1%positive := Unknown]}
  ∧ applyTransferFunction true A [store] {[1%positive := Maybe]}
    = Ret {[1%positive := Unknown]}.
Proof.
  intros A store hooked.
  assert (Htracked : 1%positive ∈ ABIRegisters A) by (vm_compute; reflexivity).
  assert (Hpre : CallSite A ≠ Some 10%positive) by (vm_compute; discriminate).
  assert (Hpost : CallSite A ≠ Some 12%positive) by (vm_compute; discriminate).
  split; [exact Htracked |]. split; [exact Hpre |]. split; [exact Hpost |].
  apply (transfer_WeakWrite_same_as_Write true A 1 10 11 12 Htracked Hpre Hpost).
Defined.

(** C6, as stated, fails: a block made of the distinguished call alone has
    no load or store, yet from the empty map the forward transfer returns
    [{1: Maybe}], which is not the empty map. *)
Lemma applyTransferFunction_TheCall_adds_entries :
  let A := newABIAnalysis (Some 10%positive) [Some 1%positive] in
  let L := [mkInstruction 10 (Call (Some "callee"))] in
  (∀ I, I ∈ L → touchesTrackedRegister A I = false)
  ∧ applyTransferFunction true A L ∅ = Ret {[1%positive := Maybe]}
  ∧ applyTransferFunction true A L ∅ ≠ Ret ∅.
Proof.
  intros A L.
  assert (Hrun : applyTransferFunction true A L ∅ = Ret {[1%positive := Maybe]})
    by (vm_compute; reflexivity).
  split; [| split; [exact Hrun |]].
  - intros I ->%list_elem_of_singleton. reflexivity.
  - rewrite Hrun. intros Heq.
    assert (Hm : ({[1%positive := Maybe]} : LatticeMap) = ∅) by congruence.
    apply (f_equal (λ M : LatticeMap, M !! 1%positive)) in Hm.
    rewrite lookup_singleton_eq, lookup_empty in Hm. discriminate Hm.
Qed.

(** C6, amended: on a block with no load or store of a tracked register,
    [applyTransferFunction] returns a map that reads like the incoming
    map [M] at every register (absent keys read as [Maybe]) and is
    equivalent to [M] for the map order; it is [M] itself when the block
    does not contain the distinguished call, and otherwise [M] extended
    with an explicit entry for every tracked register. *)
Theorem applyTransferFunction_untracked_block
    (isForward : bool) (A : ABIAnalysis) (L : BasicBlock) (M : LatticeMap) :
  (∀ I, I ∈ L → touchesTrackedRegister A I = false) →
  ∃ M' : LatticeMap,
    applyTransferFunction isForward A L M = Ret M'
    ∧ (∀ k, getOrDefault M' k = getOrDefault M k)
    ∧ (∀ k, M' !! k = if hasTheCall A L && bool_decide (k ∈ getRegisters A)
                      then Some (getOrDefault M k)
                      else M !! k)
    ∧ (hasTheCall A L = false → M' = M)
    ∧ isLessOrEqual M M' = true
    ∧ isLessOrEqual M' M = true.
Proof.
  intros Hun. rewrite applyTransferFunction_visitOrder.
  destruct (transferInstructions_untracked A L (visitOrder isForward L) M)
    as (M' & Hrun & Hlook).
  { intros I HI. apply Hun. unfold visitOrder in HI.
    destruct isForward; [exact HI | by apply elem_of_reverse]. }
  rewrite hasTheCall_visitOrder in Hlook.
  assert (Hget : ∀ k, getOrDefault M' k = getOrDefault M k).
  { intros k. unfold getOrDefault at 1. rewrite Hlook.
    destruct (hasTheCall A L && bool_decide (k ∈ getRegisters A)); reflexivity. }
  exists M'. split; [exact Hrun |]. split; [exact Hget |]. split; [exact Hlook |].
  split; [| split].
  - intros Hno. apply map_eq. intros k. rewrite Hlook, Hno. reflexivity.
  - apply isLessOrEqual_pointwise. intros k. rewrite Hget.
    apply core_isLessOrEqual_refl.
  - apply isLessOrEqual_pointwise. intros k. rewrite Hget.
    apply core_isLessOrEqual_refl.
Qed.

Lemma applyTransferFunction_untracked_block_witness :
  let A := newABIAnalysis (Some 10%positive) [Some 1%positive] in
  let L := [mkInstruction 10 (Call (Some "callee"))] in
  (∀ I, I ∈ L → touchesTrackedRegister A I = false)
  ∧ ∃ M' : LatticeMap,
      applyTransferFunction true A L ∅ = Ret M'
      ∧ (∀ k, getOrDefault M' k = getOrDefault ∅ k)
      ∧ (∀ k, M' !! k = if hasTheCall A L && bool_decide (k ∈ getRegisters A)
                        then Some (getOrDefault ∅ k)
                        else (∅ : LatticeMap) !! k)
      ∧ (hasTheCall A L = false → M' = ∅)
      ∧ isLessOrEqual ∅ M' = true
      ∧ isLessOrEqual M' ∅ = true.
Proof.
  intros A L.
  assert (Hun : ∀ I, I ∈ L → touchesTrackedRegister A I = false).
  { intros I ->%list_elem_of_singleton. reflexivity. }
  split; [exact Hun |].
  exact (applyTransferFunction_untracked_block true A L ∅ Hun).
Defined.

End block_transfer_claims.

(** * Further properties of the code *)

(** ** The per-register lattice, continued *)

Section core_lattice_more.

Local Ltac by_value_cases :=
  repeat match goal with x : LatticeElement |- _ => destruct x end;
  simpl; intros; first [reflexivity | discriminate | congruence].

(** X1: [isLessOrEqual] is the linear order [Unknown < Maybe < Yes]. *)
Theorem core_isLessOrEqual_chain (a b : LatticeElement) :
  CoreLattice.isLessOrEqual a b = (rank a <=? rank b).
Proof. by_value_cases. Qed.

(** X2: [combineValues] returns the larger of its two arguments. *)
Theorem core_combineValues_is_max (a b : LatticeElement) :
  CoreLattice.combineValues a b = if CoreLattice.isLessOrEqual a b then b else a.
Proof. by_value_cases. Qed.

(** X3: [combineValues] is associative and idempotent, so joining several
    predecessors gives the same value in any grouping. *)
Theorem core_combineValues_assoc_idemp (a b c : LatticeElement) :
  CoreLattice.combineValues (CoreLattice.combineValues a b) c
  = CoreLattice.combineValues a (CoreLattice.combineValues b c)
  ∧ CoreLattice.combineValues a a = a.
Proof. split; by_value_cases. Qed.

Lemma core_transfer_decided T v : v ≠ Maybe → CoreLattice.transfer T v = v.
Proof. destruct T, v; simpl; intros; congruence. Qed.

Lemma core_transfer_access_decides T v :
  T = TransferKind.Read ∨ T = TransferKind.Write ∨ T = TransferKind.WeakWrite →
  CoreLattice.transfer T v ≠ Maybe.
Proof. intros [-> | [-> | ->]]; destruct v; discriminate. Qed.

Lemma core_transfer_idemp T v :
  CoreLattice.transfer T (CoreLattice.transfer T v) = CoreLattice.transfer T v.
Proof. destruct T, v; reflexivity. Qed.

Lemma core_transfer_mono T a b :
  CoreLattice.isLessOrEqual a b = true →
  CoreLattice.isLessOrEqual (CoreLattice.transfer T a) (CoreLattice.transfer T b) = true.
Proof. destruct T, a, b; simpl; intros H; first [exact H | reflexivity | discriminate H]. Qed.

(** X4: The first access decides: once a [Read], [Write] or [WeakWrite] has
    been applied, no later event of any kind changes the value. *)
Theorem core_transfer_first_access_wins
    (T1 T2 : TransferKind) (v : LatticeElement) :
  T1 = TransferKind.Read ∨ T1 = TransferKind.Write ∨ T1 = TransferKind.WeakWrite →
  CoreLattice.transfer T2 (CoreLattice.transfer T1 v) = CoreLattice.transfer T1 v.
Proof. intros HT. apply core_transfer_decided, core_transfer_access_decides, HT. Qed.

Lemma core_transfer_first_access_wins_witness :
  CoreLattice.transfer TransferKind.Read (CoreLattice.transfer TransferKind.Write Maybe)
  = CoreLattice.transfer TransferKind.Write Maybe.
Proof.
  apply (core_transfer_first_access_wins TransferKind.Write TransferKind.Read Maybe).
  right. left. reflexivity.
Defined.

(** X5: [Read] never lowers a value, [Write] and [WeakWrite] never raise one,
    and neither of the two retracts a [Yes]. *)
Theorem core_transfer_directions (v : LatticeElement) :
  CoreLattice.isLessOrEqual v (CoreLattice.transfer TransferKind.Read v) = true
  ∧ CoreLattice.isLessOrEqual (CoreLattice.transfer TransferKind.Write v) v = true
  ∧ CoreLattice.isLessOrEqual (CoreLattice.transfer TransferKind.WeakWrite v) v = true
  ∧ CoreLattice.transfer TransferKind.Write Yes = Yes
  ∧ CoreLattice.transfer TransferKind.WeakWrite Yes = Yes.
Proof. destruct v; repeat split. Qed.

End core_lattice_more.

(** ** The map lattice, continued *)

Section map_lattice_more.

Implicit Types (Lh Rh M : LatticeMap) (k : GlobalVariable).

Lemma combineValues_reading Lh Rh k :
  getOrDefault (combineValues Lh Rh) k
  = match Rh !! k with
    | Some _ => CoreLattice.combineValues (getOrDefault Lh k) (getOrDefault Rh k)
    | None => getOrDefault Lh k
    end.
Proof.
  unfold getOrDefault at 1. rewrite combineValues_lookup.
  destruct (Rh !! k); reflexivity.
Qed.

(** X6: The result of the map-level [combineValues] holds exactly the keys of
    its two operands. *)
Theorem combineValues_dom (Lh Rh : LatticeMap) :
  dom (combineValues Lh Rh) = dom Lh ∪ dom Rh.
Proof.
  apply set_eq. intros k.
  rewrite elem_of_union, !elem_of_dom, combineValues_lookup.
  destruct (Rh !! k) as [v |] eqn:HR.
  - split; [intros _; right | intros _]; eauto.
  - split; [by left | intros [H | [? [=]]]; exact H].
Qed.

(** X7: At every key held by the right operand, and at every key whose value
    on the left is not [Unknown], the result reads as the per-register
    join of the two readings. *)
Theorem combineValues_reads_join (Lh Rh : LatticeMap) (k : GlobalVariable) :
  is_Some (Rh !! k) ∨ getOrDefault Lh k ≠ Unknown →
  getOrDefault (combineValues Lh Rh) k
  = CoreLattice.combineValues (getOrDefault Lh k) (getOrDefault Rh k).
Proof.
  intros Hk. rewrite combineValues_reading.
  destruct (Rh !! k) as [v |] eqn:HR; [reflexivity |].
  destruct Hk as [[? [=]] | Hk].
  rewrite (getOrDefault_absent Rh k HR), core_combineValues_default_r.
  destruct (getOrDefault Lh k); [reflexivity | contradiction | reflexivity].
Qed.

Lemma combineValues_reads_join_witness :
  let Lh : LatticeMap := {[1%positive := Unknown]} in
  let Rh : LatticeMap := {[1%positive := Yes]} in
  (is_Some (Rh !! 1%positive) ∨ getOrDefault Lh 1%positive ≠ Unknown)
  ∧ getOrDefault (combineValues Lh Rh) 1%positive
    = CoreLattice.combineValues (getOrDefault Lh 1%positive) (getOrDefault Rh 1%positive).
Proof.
  intros Lh Rh.
  assert (Hk : is_Some (Rh !! 1%positive) ∨ getOrDefault Lh 1%positive ≠ Unknown).
  { left. exists Yes. reflexivity. }
  split; [exact Hk |].
  exact (combineValues_reads_join Lh Rh 1%positive Hk).
Defined.

(** X8: The result of [combineValues] is always above its left operand. *)
Theorem combineValues_above_left (Lh Rh : LatticeMap) :
  isLessOrEqual Lh (combineValues Lh Rh) = true.
Proof.
  apply isLessOrEqual_pointwise. intros k. rewrite combineValues_reading.
  destruct (Rh !! k); [| apply core_isLessOrEqual_refl].
  destruct (getOrDefault Lh k), (getOrDefault Rh k); reflexivity.
Qed.

(** X9: The result of [combineValues] is above its right operand exactly when
    every key that the left operand maps to [Unknown] is also a key of the
    right operand. *)
Theorem combineValues_above_right_iff (Lh Rh : LatticeMap) :
  isLessOrEqual Rh (combineValues Lh Rh) = true
  ↔ ∀ k : GlobalVariable, Lh !! k = Some Unknown → is_Some (Rh !! k).
Proof.
  rewrite isLessOrEqual_pointwise. split.
  - intros Hall k HL. specialize (Hall k). rewrite combineValues_reading in Hall.
    destruct (Rh !! k) as [v |] eqn:HR; [eauto |].
    rewrite (getOrDefault_absent Rh k HR) in Hall.
    unfold getOrDefault in Hall. rewrite HL in Hall. discriminate Hall.
  - intros Hkeys k. rewrite combineValues_reading.
    destruct (Rh !! k) as [v |] eqn:HR.
    + destruct (getOrDefault Lh k), (getOrDefault Rh k); reflexivity.
    + rewrite (getOrDefault_absent Rh k HR). unfold getOrDefault.
      destruct (Lh !! k) as [[| |] |] eqn:HL; try reflexivity.
      destruct (Hkeys k HL) as [v Hv]. congruence.
Qed.

(** X10: Combining a map with itself, or with the empty map on the right,
    returns the map unchanged; combining the empty map with [M] raises
    every [Unknown] of [M] to [Maybe] and keeps the other entries. *)
Theorem combineValues_idemp_empty (M : LatticeMap) :
  combineValues M M = M
  ∧ combineValues M ∅ = M
  ∧ combineValues ∅ M = (λ v, match v with Unknown => Maybe | _ => v end) <$> M.
Proof.
  split; [| split].
  - apply map_eq. intros k. rewrite combineValues_lookup.
    destruct (M !! k) as [v |] eqn:Hk; [| reflexivity].
    unfold getOrDefault. rewrite Hk, core_combineValues_idemp. reflexivity.
  - unfold combineValues. rewrite map_to_list_empty. reflexivity.
  - apply map_eq. intros k. rewrite combineValues_lookup, lookup_fmap.
    destruct (M !! k) as [v |] eqn:Hk; [| reflexivity].
    unfold getOrDefault. rewrite Hk, lookup_empty. destruct v; reflexivity.
Qed.

(** X11: The map-level [isLessOrEqual] is reflexive and transitive. *)
Theorem isLessOrEqual_preorder (M1 M2 M3 : LatticeMap) :
  isLessOrEqual M1 M1 = true
  ∧ (isLessOrEqual M1 M2 = true →
     isLessOrEqual M2 M3 = true →
     isLessOrEqual M1 M3 = true).
Proof.
  rewrite !isLessOrEqual_pointwise. split.
  - intros k. apply core_isLessOrEqual_refl.
  - intros H12 H23 k. eapply core_isLessOrEqual_trans; [apply H12 | apply H23].
Qed.

Lemma isLessOrEqual_preorder_witness :
  let M1 : LatticeMap := {[1%positive := Unknown]} in
  let M2 : LatticeMap := ∅ in
  let M3 : LatticeMap := {[2%positive := Yes]} in
  isLessOrEqual M1 M2 = true
  ∧ isLessOrEqual M2 M3 = true
  ∧ isLessOrEqual M1 M3 = true.
Proof.
  intros M1 M2 M3.
  assert (H12 : isLessOrEqual M1 M2 = true) by (vm_compute; reflexivity).
  assert (H23 : isLessOrEqual M2 M3 = true) by (vm_compute; reflexivity).
  split; [exact H12 |]. split; [exact H23 |].
  exact (proj2 (isLessOrEqual_preorder M1 M2 M3) H12 H23).
Defined.

(** X12: Two maps are below each other exactly when they read the same at
    every register; they need not be the same map. *)
Theorem isLessOrEqual_both_ways (M1 M2 : LatticeMap) :
  (isLessOrEqual M1 M2 = true ∧ isLessOrEqual M2 M1 = true)
  ↔ ∀ k : GlobalVariable, getOrDefault M1 k = getOrDefault M2 k.
Proof.
  rewrite !isLessOrEqual_pointwise. split.
  - intros [H12 H21] k. apply core_isLessOrEqual_antisym; [apply H12 | apply H21].
  - intros Heq. split; intros k; rewrite Heq; apply core_isLessOrEqual_refl.
Qed.

End map_lattice_more.

(** ** The instruction classifier, continued *)

Section classifier_more.

Implicit Types (A : ABIAnalysis) (B : BasicBlock) (I : Instruction)
  (T : TransferKind) (p : Value).

Lemma isCallSiteBlock_Ret B b : isCallSiteBlock B = Ret b → b = specCallSiteBlock B.
Proof.
  unfold isCallSiteBlock, specCallSiteBlock.
  destruct (getFirstInsertionPt B) as [First |]; [| discriminate].
  destruct (kind First) as [| | [Name |] | |]; intros [= <-]; reflexivity.
Qed.

Lemma isCallSiteBlock_returns B :
  returns (isCallSiteBlock B) ↔ firstCallResolved B = true.
Proof.
  unfold isCallSiteBlock, firstCallResolved, returns.
  destruct (getFirstInsertionPt B) as [First |].
  - destruct (kind First) as [| | [Name |] | |];
      (split; [intros _; reflexivity | intros _; eauto])
      || (split; [intros [b [=]] | discriminate]).
  - split; [intros [b [=]] | discriminate].
Qed.

Lemma isABIRegister_true A p :
  isABIRegister A p = true ↔ ∃ G, p = VGlobalVariable G ∧ G ∈ ABIRegisters A.
Proof.
  destruct p as [G | a]; simpl.
  - rewrite bool_decide_eq_true. split; [eauto |]. by intros (G' & [= <-] & HG).
  - split; [discriminate | by intros (G' & [=] & _)].
Qed.

(** X13: The constructor drops the null entries of the catalog, keeps the others
    in order as the register list, and [isABIRegister] accepts exactly the
    global variables of that list. *)
Theorem newABIAnalysis_registers (CS : option positive)
    (abiRegisters : list (option GlobalVariable)) (V : Value) :
  let A := newABIAnalysis CS abiRegisters in
  CallSite A = CS
  ∧ getRegisters A = omap id abiRegisters
  ∧ (isABIRegister A V = true ↔ ∃ G, V = VGlobalVariable G ∧ G ∈ getRegisters A).
Proof.
  intros A. destruct (newABIAnalysis_fields CS abiRegisters) as (HCS & HRL & HSet).
  split; [exact HCS |]. split; [exact HRL |].
  rewrite isABIRegister_true. unfold getRegisters. fold A in HRL, HSet. rewrite HRL.
  split; intros (G & -> & HG); exists G; (split; [reflexivity |]).
  - apply HSet in HG. apply list_elem_of_omap. exists (Some G). by split.
  - apply list_elem_of_omap in HG as (o & Ho & Hid). simpl in Hid. subst o.
    by apply HSet.
Qed.

Lemma classifyInstruction_returns_when A B I :
  returns (classifyInstruction A B I)
  ↔ (∀ p, kind I = Store p → isABIRegister A p = true → firstCallResolved B = true).
Proof.
  unfold classifyInstruction.
  destruct (kind I) as [p | p | callee | |] eqn:HI.
  - destruct (isABIRegister A p) eqn:Hp.
    + destruct (isCallSiteBlock B) as [b | c] eqn:HB; simpl.
      * assert (Hres : firstCallResolved B = true)
          by (apply isCallSiteBlock_returns; rewrite HB; by exists b).
        split; [intros _ ? _ _; exact Hres |].
        intros _. destruct b; eexists; reflexivity.
      * split; [intros [T [=]] |].
        intros Hres. specialize (Hres p eq_refl Hp).
        apply isCallSiteBlock_returns in Hres as [b Hb]. congruence.
    + split; [intros _ p' [= <-] Hp'; congruence | intros _; eexists; reflexivity].
  - destruct (isABIRegister A p);
      (split; [intros _ ? [=] | intros _; eexists; reflexivity]).
  - destruct (bool_decide _);
      (split; [intros _ ? [=] | intros _; eexists; reflexivity]).
  - split; [intros _ ? [=] | intros _; eexists; reflexivity].
  - split; [intros _ ? [=] | intros _; eexists; reflexivity].
Qed.

(** X14: [classifyInstruction] returns unless the instruction is a store to a
    tracked register whose block has no first executable instruction or
    opens with a call without a named callee. *)
Theorem classifyInstruction_returns_iff A B I :
  returns (classifyInstruction A B I)
  ↔ (∀ p, kind I = Store p → isABIRegister A p = true → firstCallResolved B = true).
Proof. apply classifyInstruction_returns_when. Qed.

Lemma classifyInstruction_Ret_spec A B I T :
  classifyInstruction A B I = Ret T → T = specClassify A B I.
Proof.
  unfold classifyInstruction, specClassify.
  destruct (kind I) as [p | p | callee | |].
  - destruct (isABIRegister A p); [| by intros [= <-]].
    destruct (isCallSiteBlock B) as [b | c] eqn:HB; simpl; [| discriminate].
    apply isCallSiteBlock_Ret in HB as <-.
    destruct b; by intros [= <-].
  - destruct (isABIRegister A p); by intros [= <-].
  - rewrite (bool_decide_ext (Some (address I) = CallSite A)
                             (CallSite A = Some (address I))) by (split; congruence).
    destruct (bool_decide _); by intros [= <-].
  - by intros [= <-].
  - by intros [= <-].
Qed.

(** X15: Whenever [classifyInstruction] returns, it returns the tag of the
    spec's table, and never one of the legacy tags. *)
Theorem classifyInstruction_returned_tag A B I T :
  classifyInstruction A B I = Ret T →
  T = specClassify A B I
  ∧ (T = TransferKind.Read ∨ T = TransferKind.Write ∨ T = TransferKind.WeakWrite
     ∨ T = TransferKind.TheCall ∨ T = TransferKind.None).
Proof.
  intros HT. apply classifyInstruction_Ret_spec in HT as ->.
  split; [reflexivity |]. unfold specClassify.
  destruct (kind I) as [p | p | callee | |]; auto 6.
  - destruct (isABIRegister A p); [destruct (specCallSiteBlock B) |]; auto 6.
  - destruct (isABIRegister A p); auto 6.
  - destruct (bool_decide _); auto 6.
Qed.

Lemma classifyInstruction_returned_tag_witness :
  let A := newABIAnalysis None [Some 1%positive] in
  let I := mkInstruction 11 (Store (VGlobalVariable 1)) in
  let B := [mkInstruction 10 (Call (Some "precall_hook")); I] in
  classifyInstruction A B I = Ret TransferKind.WeakWrite
  ∧ TransferKind.WeakWrite = specClassify A B I.
Proof.
  intros A I B.
  assert (HT : classifyInstruction A B I = Ret TransferKind.WeakWrite)
    by (vm_compute; reflexivity).
  split; [exact HT |].
  exact (proj1 (classifyInstruction_returned_tag A B I _ HT)).
Defined.

(** X16: An instruction yields at most one register, read or written but not
    both, and only tracked registers are ever yielded. *)
Theorem getRegisters_read_written_at_most_one A I :
  length (getRegistersRead A I) + length (getRegistersWritten A I) ≤ 1
  ∧ ∀ G, G ∈ getRegistersRead A I ++ getRegistersWritten A I → G ∈ ABIRegisters A.
Proof.
  unfold getRegistersRead, getRegistersWritten.
  destruct (kind I) as [[G | a] | [G | a] | callee | |]; simpl;
    try (split; [lia | intros G' HG'; by apply elem_of_nil in HG']).
  - destruct (bool_decide (G ∈ ABIRegisters A)) eqn:HG; simpl.
    + split; [lia |]. intros G' ->%list_elem_of_singleton.
      by apply bool_decide_eq_true in HG.
    + split; [lia | intros G' HG'; by apply elem_of_nil in HG'].
  - destruct (bool_decide (G ∈ ABIRegisters A)) eqn:HG; simpl.
    + split; [lia |]. intros G' ->%list_elem_of_singleton.
      by apply bool_decide_eq_true in HG.
    + split; [lia | intros G' HG'; by apply elem_of_nil in HG'].
Qed.

(** X17: The register lists agree with the classification: when
    [classifyInstruction] returns [T], [getRegistersRead] is non-empty
    exactly for [T = Read] and [getRegistersWritten] exactly for
    [T = Write] or [T = WeakWrite]. *)
Theorem getRegisters_agree_with_classification A B I T :
  classifyInstruction A B I = Ret T →
  (getRegistersRead A I ≠ [] ↔ T = TransferKind.Read)
  ∧ (getRegistersWritten A I ≠ []
     ↔ T = TransferKind.Write ∨ T = TransferKind.WeakWrite).
Proof.
  unfold classifyInstruction, getRegistersRead, getRegistersWritten.
  destruct (kind I) as [p | p | callee | |].
  - destruct p as [G | a]; simpl.
    + destruct (bool_decide (G ∈ ABIRegisters A)).
      * destruct (isCallSiteBlock B) as [[|] | c]; simpl; intros [= <-];
          (split; split; [congruence | discriminate | auto | discriminate]).
      * intros [= <-]. split; split; try congruence. intros [|]; discriminate.
    + intros [= <-]. split; split; try congruence. intros [|]; discriminate.
  - destruct p as [G | a]; simpl.
    + destruct (bool_decide (G ∈ ABIRegisters A)); intros [= <-].
      * split; split; try congruence; try discriminate. intros [|]; discriminate.
      * split; split; try congruence. intros [|]; discriminate.
    + intros [= <-]. split; split; try congruence. intros [|]; discriminate.
  - destruct (bool_decide _); intros [= <-];
      (split; split; try congruence; intros [|]; discriminate).
  - intros [= <-]. split; split; try congruence. intros [|]; discriminate.
  - intros [= <-]. split; split; try congruence. intros [|]; discriminate.
Qed.

Lemma getRegisters_agree_with_classification_witness :
  let A := newABIAnalysis None [Some 1%positive] in
  let I := mkInstruction 11 (Load (VGlobalVariable 1)) in
  classifyInstruction A [I] I = Ret TransferKind.Read
  ∧ (getRegistersRead A I ≠ [] ↔ TransferKind.Read = TransferKind.Read).
Proof.
  intros A I.
  assert (HT : classifyInstruction A [I] I = Ret TransferKind.Read)
    by (vm_compute; reflexivity).
  split; [exact HT |].
  exact (proj1 (getRegisters_agree_with_classification A [I] I _ HT)).
Defined.

End classifier_more.

(** ** The hooks of a call-site block *)

Section hooks.

Variable isTerminator : Instruction → bool.
Implicit Types (A : ABIAnalysis) (B : BasicBlock) (I H : Instruction).

Lemma getPreCallHook_Some B H :
  getPreCallHook B = Ret (Some H)
  ↔ getFirstInsertionPt B = Some H ∧ kind H = Call (Some "precall_hook").
Proof.
  unfold getPreCallHook, isCallSiteBlock.
  destruct (getFirstInsertionPt B) as [First |]; simpl.
  - destruct (kind First) as [| | [Name |] | |] eqn:HF; simpl;
      try (split; [discriminate | intros [[= <-] HH]; congruence]).
    destruct (bool_decide (Name = "precall_hook")) eqn:HN.
    + apply bool_decide_eq_true in HN as ->.
      split; [intros [= <-]; by split | intros [[= <-] _]; reflexivity].
    + apply bool_decide_eq_false in HN.
      split; [discriminate | intros [[= <-] HH]; congruence].
  - split; [discriminate | intros [[=] _]].
Qed.

Lemma getPreCallHook_None B :
  getPreCallHook B = Ret None ↔ isCallSiteBlock B = Ret false.
Proof.
  unfold getPreCallHook.
  destruct (isCallSiteBlock B) as [[|] | c] eqn:HB; simpl.
  - destruct (getFirstInsertionPt B); split; discriminate.
  - split; reflexivity.
  - split; discriminate.
Qed.

(** X18: [getPreCallHook] returns an instruction exactly when the first
    executable instruction of the block calls [precall_hook], and then
    returns that instruction; it returns null exactly when
    [isCallSiteBlock] returns false. *)
Theorem getPreCallHook_result B H :
  (getPreCallHook B = Ret (Some H)
   ↔ getFirstInsertionPt B = Some H ∧ kind H = Call (Some "precall_hook"))
  ∧ (getPreCallHook B = Ret None ↔ isCallSiteBlock B = Ret false).
Proof. split; [apply getPreCallHook_Some | apply getPreCallHook_None]. Qed.

(** X19: A store to a tracked register is classified [WeakWrite] exactly in the
    blocks that have a pre-call hook, and [Write] exactly in the blocks
    for which [getPreCallHook] returns null. *)
Theorem classifyInstruction_store_by_hook A B I (p : Value) :
  kind I = Store p →
  isABIRegister A p = true →
  (classifyInstruction A B I = Ret TransferKind.WeakWrite
   ↔ ∃ H, getPreCallHook B = Ret (Some H))
  ∧ (classifyInstruction A B I = Ret TransferKind.Write
     ↔ getPreCallHook B = Ret None).
Proof.
  intros HI Hp. rewrite getPreCallHook_None.
  unfold classifyInstruction, getPreCallHook. rewrite HI, Hp.
  destruct (isCallSiteBlock B) as [[|] | c] eqn:HB; simpl.
  - assert (Hfirst : is_Some (getFirstInsertionPt B)).
    { unfold isCallSiteBlock in HB. destruct (getFirstInsertionPt B); [eauto | discriminate]. }
    destruct Hfirst as [First ->].
    split; split; try discriminate; eauto.
  - split; split; try discriminate; try reflexivity. intros [H [=]].
  - split; split; try discriminate. intros [H [=]].
Qed.

Lemma classifyInstruction_store_by_hook_witness :
  let A := newABIAnalysis None [Some 1%positive] in
  let I := mkInstruction 11 (Store (VGlobalVariable 1)) in
  let B := [mkInstruction 10 (Call (Some "precall_hook")); I] in
  kind I = Store (VGlobalVariable 1)
  ∧ isABIRegister A (VGlobalVariable 1) = true
  ∧ (classifyInstruction A B I = Ret TransferKind.WeakWrite
     ↔ ∃ H, getPreCallHook B = Ret (Some H)).
Proof.
  intros A I B.
  assert (Hp : isABIRegister A (VGlobalVariable 1) = true) by (vm_compute; reflexivity).
  split; [reflexivity |]. split; [exact Hp |].
  exact (proj1 (classifyInstruction_store_by_hook A B I (VGlobalVariable 1) eq_refl Hp)).
Defined.

(** X20: In a call-site block that ends with a terminator, [getPostCallHook]
    returns the instruction just before the terminator. *)
Theorem getPostCallHook_penultimate B (front : list Instruction) (post term : Instruction) :
  B = front ++ [post; term] →
  isCallSiteBlock B = Ret true →
  kind term = Other →
  isTerminator term = true →
  getPostCallHook isTerminator B = Ret (Some post).
Proof.
  intros -> HB Hk Ht. unfold getPostCallHook. rewrite HB. simpl.
  assert (Hlast : getTerminator isTerminator (front ++ [post; term]) = Some term).
  { unfold getTerminator.
    change (front ++ [post; term]) with (front ++ [post] ++ [term]).
    rewrite app_assoc, last_snoc, Hk, Ht. reflexivity. }
  rewrite Hlast. f_equal. unfold prevOfLast.
  rewrite length_app. simpl. rewrite Nat.add_comm. simpl.
  apply list_lookup_middle. reflexivity.
Qed.

End hooks.

(* The two-instruction call-site block: the post-call hook is the pre-call
   hook itself. *)
Lemma getPostCallHook_penultimate_witness :
  let isTerminator := λ _ : Instruction, true in
  let pre := mkInstruction 10 (Call (Some "precall_hook")) in
  let term := mkInstruction 11 Other in
  isCallSiteBlock [pre; term] = Ret true
  ∧ getPostCallHook isTerminator [pre; term] = Ret (Some pre)
  ∧ getPreCallHook [pre; term] = Ret (Some pre).
Proof.
  intros isTerminator pre term.
  split; [reflexivity |]. split; [| reflexivity].
  apply (getPostCallHook_penultimate isTerminator [pre; term] [] pre term);
    reflexivity.
Defined.

(** ** Block transfer, continued *)

Section block_transfer_more.

Variable A : ABIAnalysis.
Implicit Types (L : BasicBlock) (I : Instruction) (New E M : LatticeMap)
  (k Reg : GlobalVariable) (T : TransferKind).

Lemma updateRegisters_reading T Regs New k :
  getOrDefault (updateRegisters T Regs New) k
  = if bool_decide (k ∈ Regs)
    then CoreLattice.transfer T (getOrDefault New k)
    else getOrDefault New k.
Proof.
  unfold updateRegisters. revert New.
  induction Regs as [| Reg rest IH]; intros New; cbn [foldl].
  - rewrite bool_decide_false; [reflexivity | apply not_elem_of_nil].
  - rewrite IH, getOrDefault_insert.
    destruct (decide (Reg = k)) as [<- | Hne].
    + rewrite (bool_decide_true (Reg ∈ Reg :: rest)) by apply list_elem_of_here.
      destruct (bool_decide (Reg ∈ rest)); [apply core_transfer_idemp | reflexivity].
    + rewrite (bool_decide_ext (k ∈ Reg :: rest) (k ∈ rest)); [reflexivity |].
      rewrite elem_of_cons. split; [| by right].
      intros [-> | Hk]; [contradiction | exact Hk].
Qed.

Lemma updateRegisters_dom T Regs New :
  dom (updateRegisters T Regs New) = dom New ∪ list_to_set Regs.
Proof.
  unfold updateRegisters. revert New.
  induction Regs as [| Reg rest IH]; intros New; cbn [foldl].
  - rewrite list_to_set_nil, (right_id_L ∅ (∪)). reflexivity.
  - rewrite IH, dom_insert_L, list_to_set_cons.
    rewrite (comm_L (∪) {[Reg]} (dom New)), (assoc_L (∪)). reflexivity.
Qed.

(* What [transferInstruction] does when it returns: an update of the
   registers of one list with one transfer kind. *)
Lemma transferInstruction_Ret L New I M :
  transferInstruction A L New I = Ret M →
  ∃ T Regs,
    M = updateRegisters T Regs New
    ∧ list_to_set Regs = instructionTouches A I
    ∧ ∀ k, (if bool_decide (k ∈ Regs) then CoreLattice.transfer T else id)
           = CoreLattice.transfer (accessKind A k I).
Proof.
  assert (Hnil : ∀ k : GlobalVariable, bool_decide (k ∈ @nil GlobalVariable) = false).
  { intros k. apply bool_decide_eq_false, not_elem_of_nil. }
  assert (Hidle : ∀ M' : LatticeMap, Ret New = Ret M' →
            getRegistersRead A I = [] → getRegistersWritten A I = [] →
            isTheCall A I = false →
            ∃ T Regs,
              M' = updateRegisters T Regs New
              ∧ list_to_set Regs = instructionTouches A I
              ∧ ∀ k, (if bool_decide (k ∈ Regs) then CoreLattice.transfer T else id)
                     = CoreLattice.transfer (accessKind A k I)).
  { intros M' [= <-] HR HW HC. exists TransferKind.None, [].
    unfold instructionTouches, accessKind. rewrite HR, HW, HC.
    split; [reflexivity |]. split.
    - rewrite app_nil_r, list_to_set_nil, (right_id_L ∅ (∪)). reflexivity.
    - intros k. rewrite Hnil. reflexivity. }
  assert (Hone : ∀ T G, isTheCall A I = false →
            (getRegistersRead A I = [G] ∧ getRegistersWritten A I = []
             ∧ T = TransferKind.Read)
            ∨ (getRegistersRead A I = [] ∧ getRegistersWritten A I = [G]
               ∧ (T = TransferKind.Write ∨ T = TransferKind.WeakWrite)) →
            list_to_set [G] = instructionTouches A I
            ∧ ∀ k, (if bool_decide (k ∈ [G]) then CoreLattice.transfer T else id)
                   = CoreLattice.transfer (accessKind A k I)).
  { intros T G HC Hcase. unfold instructionTouches, accessKind. rewrite HC.
    rewrite (right_id_L ∅ (∪)).
    destruct Hcase as [(-> & -> & ->) | (-> & -> & HT)].
    - split; [reflexivity |]. intros k.
      destruct (bool_decide (k ∈ [G])); reflexivity.
    - split; [reflexivity |]. intros k. rewrite Hnil.
      destruct (bool_decide (k ∈ [G])); destruct HT as [-> | ->]; reflexivity. }
  unfold transferInstruction, classifyInstruction.
  destruct (kind I) as [p | p | callee | |] eqn:HI.
  - destruct (isABIRegister A p) eqn:Hp.
    + apply isABIRegister_true in Hp as Hp'. destruct Hp' as (G & -> & HG).
      assert (HW : getRegistersWritten A I = [G]).
      { unfold getRegistersWritten. by rewrite HI, Hp. }
      assert (HR : getRegistersRead A I = []).
      { unfold getRegistersRead. by rewrite HI. }
      assert (HC : isTheCall A I = false).
      { unfold isTheCall. by rewrite HI. }
      destruct (isCallSiteBlock L) as [[|] | c]; cbn [mbind exec_bind];
        [| | discriminate]; intros [= <-]; rewrite HW.
      * exists TransferKind.WeakWrite, [G]. split; [reflexivity |].
        apply Hone; [exact HC | right; auto].
      * exists TransferKind.Write, [G]. split; [reflexivity |].
        apply Hone; [exact HC | right; auto].
    + cbn [mbind exec_bind]. intros HM. apply Hidle; [exact HM | | |].
      * unfold getRegistersRead. by rewrite HI.
      * unfold getRegistersWritten. rewrite HI. destruct p; [by rewrite Hp | reflexivity].
      * unfold isTheCall. by rewrite HI.
  - destruct (isABIRegister A p) eqn:Hp.
    + apply isABIRegister_true in Hp as Hp'. destruct Hp' as (G & -> & HG).
      assert (HR : getRegistersRead A I = [G]).
      { unfold getRegistersRead. by rewrite HI, Hp. }
      assert (HW : getRegistersWritten A I = []).
      { unfold getRegistersWritten. by rewrite HI. }
      assert (HC : isTheCall A I = false).
      { unfold isTheCall. by rewrite HI. }
      cbn [mbind exec_bind]. intros [= <-]. rewrite HR.
      exists TransferKind.Read, [G]. split; [reflexivity |].
      apply Hone; [exact HC | left; auto].
    + cbn [mbind exec_bind]. intros HM. apply Hidle; [exact HM | | |].
      * unfold getRegistersRead. rewrite HI. destruct p; [by rewrite Hp | reflexivity].
      * unfold getRegistersWritten. by rewrite HI.
      * unfold isTheCall. by rewrite HI.
  - assert (HR : getRegistersRead A I = []).
    { unfold getRegistersRead. by rewrite HI. }
    assert (HW : getRegistersWritten A I = []).
    { unfold getRegistersWritten. by rewrite HI. }
    destruct (bool_decide (Some (address I) = CallSite A)) eqn:HCS;
      cbn [mbind exec_bind].
    + intros [= <-]. exists TransferKind.TheCall, (getRegisters A).
      split; [reflexivity |].
      unfold instructionTouches, accessKind, isTheCall. rewrite HR, HW, HI, HCS.
      split.
      * rewrite app_nil_r, list_to_set_nil, (left_id_L ∅ (∪)). reflexivity.
      * intros k. rewrite Hnil.
        destruct (bool_decide (k ∈ getRegisters A)); reflexivity.
    + intros HM. apply Hidle; [exact HM | exact HR | exact HW |].
      unfold isTheCall. by rewrite HI.
  - cbn [mbind exec_bind]. intros HM. apply Hidle; [exact HM | | |].
    + unfold getRegistersRead. by rewrite HI.
    + unfold getRegistersWritten. by rewrite HI.
    + unfold isTheCall. by rewrite HI.
  - cbn [mbind exec_bind]. intros HM. apply Hidle; [exact HM | | |].
    + unfold getRegistersRead. by rewrite HI.
    + unfold getRegistersWritten. by rewrite HI.
    + unfold isTheCall. by rewrite HI.
Qed.

Lemma transferInstruction_reading L New I M k :
  transferInstruction A L New I = Ret M →
  getOrDefault M k = CoreLattice.transfer (accessKind A k I) (getOrDefault New k).
Proof.
  intros (T & Regs & -> & _ & Hacc)%transferInstruction_Ret.
  rewrite updateRegisters_reading, <- Hacc.
  destruct (bool_decide (k ∈ Regs)); reflexivity.
Qed.

Lemma transferInstruction_dom L New I M :
  transferInstruction A L New I = Ret M → dom M = dom New ∪ instructionTouches A I.
Proof.
  intros (T & Regs & -> & Hset & _)%transferInstruction_Ret.
  rewrite updateRegisters_dom, Hset. reflexivity.
Qed.

Lemma transferInstruction_returns L New I :
  returns (transferInstruction A L New I) ↔ returns (classifyInstruction A L I).
Proof.
  unfold transferInstruction, returns.
  destruct (classifyInstruction A L I) as [T | c]; simpl.
  - split; intros _; eauto.
  - split; intros [? [=]].
Qed.

Lemma accessKind_cases k I :
  accessKind A k I = TransferKind.None
  ∨ accessKind A k I = TransferKind.Read
  ∨ accessKind A k I = TransferKind.Write.
Proof. unfold accessKind. repeat case_bool_decide; auto. Qed.

Lemma transferInstructions_reading L Is : ∀ New M k,
  transferInstructions A L Is New = Ret M →
  getOrDefault M k = CoreLattice.transfer (firstAccess A k Is) (getOrDefault New k).
Proof.
  induction Is as [| J rest IH]; intros New M k; cbn [transferInstructions firstAccess].
  - intros [= <-]. reflexivity.
  - destruct (transferInstruction A L New J) as [M1 | c] eqn:HJ; [| discriminate].
    simpl. intros Hrest. rewrite (IH _ _ k Hrest).
    rewrite (transferInstruction_reading _ _ _ _ k HJ).
    destruct (accessKind_cases k J) as [-> | [-> | ->]].
    + reflexivity.
    + apply core_transfer_decided, core_transfer_access_decides. auto.
    + apply core_transfer_decided, core_transfer_access_decides. auto.
Qed.

Lemma transferInstructions_dom L Is : ∀ New M,
  transferInstructions A L Is New = Ret M →
  dom M = dom New ∪ touchedRegisters A Is.
Proof.
  unfold touchedRegisters.
  induction Is as [| J rest IH]; intros New M; cbn [transferInstructions].
  - intros [= <-]. rewrite fmap_nil, union_list_nil, (right_id_L ∅ (∪)). reflexivity.
  - destruct (transferInstruction A L New J) as [M1 | c] eqn:HJ; [| discriminate].
    cbn [mbind exec_bind]. intros Hrest.
    rewrite (IH _ _ Hrest), (transferInstruction_dom _ _ _ _ HJ).
    rewrite fmap_cons, union_list_cons, (assoc_L (∪)). reflexivity.
Qed.

Lemma transferInstructions_returns L Is : ∀ New,
  returns (transferInstructions A L Is New)
  ↔ ∀ I, I ∈ Is → returns (classifyInstruction A L I).
Proof.
  induction Is as [| J rest IH]; intros New; cbn [transferInstructions].
  - split; [intros _ I HI; by apply elem_of_nil in HI | intros _; by exists New].
  - destruct (transferInstruction A L New J) as [M1 | c] eqn:HJ; simpl.
    + rewrite IH. split.
      * intros Hrest I [-> | HI]%elem_of_cons; [| by apply Hrest].
        apply (transferInstruction_returns L New). rewrite HJ. by exists M1.
      * intros Hall I HI. apply Hall. by right.
    + split; [intros [? [=]] |]. intros Hall.
      assert (Hret : returns (transferInstruction A L New J)).
      { apply transferInstruction_returns, Hall. by left. }
      rewrite HJ in Hret. destruct Hret as [? [=]].
Qed.

Lemma touchedRegisters_visitOrder isForward L :
  touchedRegisters A (visitOrder isForward L) = touchedRegisters A L.
Proof.
  unfold touchedRegisters, visitOrder. destruct isForward; [reflexivity |].
  apply set_eq. intros k. rewrite !elem_of_union_list.
  split; intros (X & HX & Hk); exists X; (split; [| exact Hk]);
    apply list_elem_of_fmap in HX as (I & -> & HI);
    apply list_elem_of_fmap; exists I; (split; [reflexivity |]);
    by apply elem_of_reverse.
Qed.

Lemma hasTrackedStore_true L :
  hasTrackedStore A L = true
  ↔ ∃ I p, I ∈ L ∧ kind I = Store p ∧ isABIRegister A p = true.
Proof.
  unfold hasTrackedStore. rewrite existsb_exists. split.
  - intros (I & HI%list_elem_of_In & HS).
    destruct (kind I) as [p | | | |] eqn:Hk; try discriminate. eauto.
  - intros (I & p & HI & Hk & Hp). exists I. split; [by apply list_elem_of_In |].
    by rewrite Hk.
Qed.

Lemma map_eq_dom_reading M1 M2 :
  dom M1 = dom M2 → (∀ k, getOrDefault M1 k = getOrDefault M2 k) → M1 = M2.
Proof.
  intros Hdom Hread. apply map_eq. intros k.
  specialize (Hread k). unfold getOrDefault in Hread.
  destruct (M1 !! k) as [v1 |] eqn:H1, (M2 !! k) as [v2 |] eqn:H2.
  - by subst.
  - apply mk_is_Some, elem_of_dom in H1. rewrite Hdom in H1.
    apply elem_of_dom in H1 as [? ?]. congruence.
  - apply mk_is_Some, elem_of_dom in H2. rewrite <- Hdom in H2.
    apply elem_of_dom in H2 as [? ?]. congruence.
  - reflexivity.
Qed.

End block_transfer_more.

Section block_transfer_extras.

Implicit Types (A : ABIAnalysis) (L : BasicBlock) (I : Instruction)
  (E M : LatticeMap) (k : GlobalVariable) (T : TransferKind).

Lemma applyTransferFunction_reading isForward A L E M k :
  applyTransferFunction isForward A L E = Ret M →
  getOrDefault M k
  = CoreLattice.transfer (firstAccess A k (visitOrder isForward L)) (getOrDefault E k).
Proof.
  rewrite applyTransferFunction_visitOrder. apply transferInstructions_reading.
Qed.

Lemma applyTransferFunction_keys isForward A L E M :
  applyTransferFunction isForward A L E = Ret M →
  dom M = dom E ∪ touchedRegisters A L.
Proof.
  rewrite applyTransferFunction_visitOrder. intros HM.
  rewrite (transferInstructions_dom _ _ _ _ _ HM).
  by rewrite touchedRegisters_visitOrder.
Qed.

Lemma applyTransferFunction_returns_when isForward A L E :
  returns (applyTransferFunction isForward A L E)
  ↔ (hasTrackedStore A L = true → firstCallResolved L = true).
Proof.
  rewrite applyTransferFunction_visitOrder, transferInstructions_returns.
  split.
  - intros Hall (I & p & HI & Hk & Hp)%hasTrackedStore_true.
    apply (proj1 (classifyInstruction_returns_when A L I)) with p; [| exact Hk | exact Hp].
    apply Hall. unfold visitOrder. destruct isForward; [exact HI | by apply elem_of_reverse].
  - intros Hres I HI. apply classifyInstruction_returns_when. intros p Hk Hp.
    apply Hres, hasTrackedStore_true. exists I, p. split; [| by split].
    unfold visitOrder in HI. destruct isForward; [exact HI | by apply elem_of_reverse].
Qed.

Lemma firstAccess_uniform A k T Is :
  (∀ I, I ∈ Is → accessKind A k I = T ∨ accessKind A k I = TransferKind.None) →
  (firstAccess A k Is = T ∧ ∃ I, I ∈ Is ∧ accessKind A k I = T)
  ∨ (firstAccess A k Is = TransferKind.None
     ∧ ∀ I, I ∈ Is → accessKind A k I = TransferKind.None).
Proof.
  induction Is as [| J rest IH]; intros Hall; cbn [firstAccess].
  - right. split; [reflexivity |]. intros I HI. by apply elem_of_nil in HI.
  - assert (Hrest : ∀ I, I ∈ rest →
              accessKind A k I = T ∨ accessKind A k I = TransferKind.None).
    { intros I HI. apply Hall. by right. }
    specialize (IH Hrest).
    pose proof (Hall J ltac:(by left)) as HJ.
    destruct (accessKind A k J) eqn:HaJ;
      try (left; destruct HJ as [<- | [=]]; split; [reflexivity |];
           exists J; split; [by left | exact HaJ]).
    destruct IH as [(Hfa & I & HI & HaI) | (Hfa & Hnone)].
    + left. split; [exact Hfa |]. exists I. split; [by right | exact HaI].
    + right. split; [exact Hfa |].
      intros I [-> | HI]%elem_of_cons; [exact HaJ | by apply Hnone].
Qed.

(** X21: The block transfer returns unless the block both holds a store to a
    tracked register and lacks a resolved first instruction; whether it
    returns depends neither on the incoming map nor on the direction. *)
Theorem applyTransferFunction_returns_iff isForward A L E :
  returns (applyTransferFunction isForward A L E)
  ↔ (hasTrackedStore A L = true → firstCallResolved L = true).
Proof. apply applyTransferFunction_returns_when. Qed.

(** X22: In the returned map every register reads as one transfer of its
    incoming reading: the transfer of the first instruction, in visiting
    order, that loads it ([Read]) or stores to it ([Write]); later accesses
    to the same register change nothing. *)
Theorem applyTransferFunction_first_access isForward A L E M k :
  applyTransferFunction isForward A L E = Ret M →
  getOrDefault M k
  = CoreLattice.transfer (firstAccess A k (visitOrder isForward L)) (getOrDefault E k).
Proof. apply applyTransferFunction_reading. Qed.

Lemma applyTransferFunction_first_access_witness :
  let A := newABIAnalysis None [Some 1%positive] in
  let L := [mkInstruction 1 (Load (VGlobalVariable 1));
            mkInstruction 2 (Store (VGlobalVariable 1))] in
  applyTransferFunction false A L ∅ = Ret {[1%positive := Unknown]}
  ∧ getOrDefault {[1%positive := Unknown]} 1%positive
    = CoreLattice.transfer (firstAccess A 1%positive (visitOrder false L))
        (getOrDefault ∅ 1%positive).
Proof.
  intros A L.
  assert (HM : applyTransferFunction false A L ∅ = Ret {[1%positive := Unknown]})
    by (vm_compute; reflexivity).
  split; [exact HM |].
  exact (applyTransferFunction_first_access false A L ∅ _ 1%positive HM).
Defined.

(** X23: A register that no instruction of the block loads or stores keeps its
    reading, whatever the block does to other registers. *)
Theorem applyTransferFunction_frame isForward A L E M k :
  (∀ I, I ∈ L → (k ∉ getRegistersRead A I) ∧ (k ∉ getRegistersWritten A I)) →
  applyTransferFunction isForward A L E = Ret M →
  getOrDefault M k = getOrDefault E k.
Proof.
  intros Hun HM. rewrite (applyTransferFunction_reading _ _ _ _ _ k HM).
  assert (Hall : ∀ I, I ∈ visitOrder isForward L →
            accessKind A k I = TransferKind.None
            ∨ accessKind A k I = TransferKind.None).
  { intros I HI. left. unfold accessKind.
    assert (HI' : I ∈ L).
    { unfold visitOrder in HI. destruct isForward; [exact HI | by apply elem_of_reverse]. }
    destruct (Hun I HI') as [HR HW].
    by rewrite !bool_decide_false. }
  destruct (firstAccess_uniform A k TransferKind.None _ Hall) as [[-> _] | [-> _]];
    reflexivity.
Qed.

Lemma applyTransferFunction_frame_witness :
  let A := newABIAnalysis None [Some 1%positive; Some 2%positive] in
  let L := [mkInstruction 1 (Store (VGlobalVariable 1))] in
  (∀ I, I ∈ L →
     (2%positive ∉ getRegistersRead A I) ∧ (2%positive ∉ getRegistersWritten A I))
  ∧ applyTransferFunction true A L {[2%positive := Yes]}
    = Ret {[1%positive := Unknown; 2%positive := Yes]}
  ∧ getOrDefault {[1%positive := Unknown; 2%positive := Yes]} 2%positive
    = getOrDefault {[2%positive := Yes]} 2%positive.
Proof.
  intros A L.
  assert (Hun : ∀ I, I ∈ L →
            (2%positive ∉ getRegistersRead A I) ∧ (2%positive ∉ getRegistersWritten A I)).
  { intros I ->%list_elem_of_singleton. split.
    - apply not_elem_of_nil.
    - vm_compute. intros Hin. inversion Hin as [| ? ? ? Hin']; inversion Hin'. }
  assert (HM : applyTransferFunction true A L {[2%positive := Yes]}
               = Ret {[1%positive := Unknown; 2%positive := Yes]})
    by (vm_compute; reflexivity).
  split; [exact Hun |]. split; [exact HM |].
  exact (applyTransferFunction_frame true A L _ _ 2%positive Hun HM).
Defined.

(** X24: A register that the block accesses in one way only (only loads, or
    only stores) ends with the same reading in both directions: the
    transfer of that access applied to the incoming reading. *)
Theorem applyTransferFunction_single_kind isForward A L E M k T :
  (∀ I, I ∈ L → accessKind A k I = T ∨ accessKind A k I = TransferKind.None) →
  (∃ I, I ∈ L ∧ accessKind A k I = T) →
  applyTransferFunction isForward A L E = Ret M →
  getOrDefault M k = CoreLattice.transfer T (getOrDefault E k).
Proof.
  intros Hall (I0 & HI0 & HT0) HM.
  rewrite (applyTransferFunction_reading _ _ _ _ _ k HM).
  assert (Hin : ∀ I, I ∈ visitOrder isForward L ↔ I ∈ L).
  { intros I. unfold visitOrder. destruct isForward; [reflexivity | apply elem_of_reverse]. }
  assert (Hall' : ∀ I, I ∈ visitOrder isForward L →
            accessKind A k I = T ∨ accessKind A k I = TransferKind.None).
  { intros I HI. by apply Hall, Hin. }
  destruct (firstAccess_uniform A k T _ Hall') as [[-> _] | [-> Hnone]];
    [reflexivity |].
  rewrite <- HT0, (Hnone I0); [reflexivity | by apply Hin].
Qed.

Lemma applyTransferFunction_single_kind_witness :
  let A := newABIAnalysis None [Some 1%positive] in
  let L := [mkInstruction 1 (Load (VGlobalVariable 1));
            mkInstruction 2 (Load (VGlobalVariable 1))] in
  applyTransferFunction false A L ∅ = Ret {[1%positive := Yes]}
  ∧ getOrDefault {[1%positive := Yes]} 1%positive
    = CoreLattice.transfer TransferKind.Read (getOrDefault ∅ 1%positive).
Proof.
  intros A L.
  assert (HM : applyTransferFunction false A L ∅ = Ret {[1%positive := Yes]})
    by (vm_compute; reflexivity).
  split; [exact HM |].
  apply (applyTransferFunction_single_kind false A L ∅ _ 1%positive TransferKind.Read).
  - intros I HI. left.
    apply elem_of_cons in HI as [-> | ->%list_elem_of_singleton];
      vm_compute; reflexivity.
  - exists (mkInstruction 1 (Load (VGlobalVariable 1))). split; [by left |].
    vm_compute. reflexivity.
  - exact HM.
Defined.

(** X25: The block transfer is monotone: maps ordered by the map-level
    [isLessOrEqual] are sent to ordered maps. *)
Theorem applyTransferFunction_monotone isForward A L (E1 E2 M1 M2 : LatticeMap) :
  isLessOrEqual E1 E2 = true →
  applyTransferFunction isForward A L E1 = Ret M1 →
  applyTransferFunction isForward A L E2 = Ret M2 →
  isLessOrEqual M1 M2 = true.
Proof.
  rewrite !isLessOrEqual_pointwise. intros Hle H1 H2 k.
  rewrite (applyTransferFunction_reading _ _ _ _ _ k H1).
  rewrite (applyTransferFunction_reading _ _ _ _ _ k H2).
  apply core_transfer_mono, Hle.
Qed.

Lemma applyTransferFunction_monotone_witness :
  let A := newABIAnalysis None [Some 1%positive] in
  let L := [mkInstruction 1 (Store (VGlobalVariable 1))] in
  let E1 : LatticeMap := ∅ in
  let E2 : LatticeMap := {[1%positive := Yes]} in
  isLessOrEqual E1 E2 = true
  ∧ applyTransferFunction true A L E1 = Ret {[1%positive := Unknown]}
  ∧ applyTransferFunction true A L E2 = Ret {[1%positive := Yes]}
  ∧ isLessOrEqual {[1%positive := Unknown]} {[1%positive := Yes]} = true.
Proof.
  intros A L E1 E2.
  assert (Hle : isLessOrEqual E1 E2 = true) by (vm_compute; reflexivity).
  assert (H1 : applyTransferFunction true A L E1 = Ret {[1%positive := Unknown]})
    by (vm_compute; reflexivity).
  assert (H2 : applyTransferFunction true A L E2 = Ret {[1%positive := Yes]})
    by (vm_compute; reflexivity).
  split; [exact Hle |]. split; [exact H1 |]. split; [exact H2 |].
  exact (applyTransferFunction_monotone true A L E1 E2 _ _ Hle H1 H2).
Defined.

(** X26: The returned map holds the keys of the incoming map together with the
    registers the block touches; no key is ever removed, and the key set
    does not depend on the direction. *)
Theorem applyTransferFunction_dom isForward A L E M :
  applyTransferFunction isForward A L E = Ret M →
  dom M = dom E ∪ touchedRegisters A L.
Proof. apply applyTransferFunction_keys. Qed.

Lemma applyTransferFunction_dom_witness :
  let A := newABIAnalysis (Some 10%positive) [Some 1%positive; Some 2%positive] in
  let L := [mkInstruction 10 (Call (Some "callee"))] in
  let E : LatticeMap := {[3%positive := Yes]} in
  let M : LatticeMap := {[1%positive := Maybe; 2%positive := Maybe; 3%positive := Yes]} in
  applyTransferFunction true A L E = Ret M
  ∧ dom M = dom E ∪ touchedRegisters A L.
Proof.
  intros A L E M.
  assert (HM : applyTransferFunction true A L E = Ret M) by (vm_compute; reflexivity).
  split; [exact HM |].
  exact (applyTransferFunction_dom true A L E M HM).
Defined.

(** X27: Applying the transfer of a block a second time changes nothing: the
    map returned by the first application is returned again. *)
Theorem applyTransferFunction_idempotent isForward A L E M :
  applyTransferFunction isForward A L E = Ret M →
  applyTransferFunction isForward A L M = Ret M.
Proof.
  intros HM.
  assert (Hret : returns (applyTransferFunction isForward A L M)).
  { apply applyTransferFunction_returns_when.
    apply (applyTransferFunction_returns_when isForward A L E). by exists M. }
  destruct Hret as [M' HM']. rewrite HM'. f_equal.
  apply map_eq_dom_reading.
  - rewrite (applyTransferFunction_keys _ _ _ _ _ HM').
    rewrite (applyTransferFunction_keys _ _ _ _ _ HM).
    rewrite <- (assoc_L (∪)), (idemp_L (∪)). reflexivity.
  - intros k. rewrite (applyTransferFunction_reading _ _ _ _ _ k HM').
    rewrite (applyTransferFunction_reading _ _ _ _ _ k HM).
    apply core_transfer_idemp.
Qed.

Lemma applyTransferFunction_idempotent_witness :
  let A := newABIAnalysis None [Some 1%positive] in
  let L := [mkInstruction 1 (Store (VGlobalVariable 1));
            mkInstruction 2 (Load (VGlobalVariable 1))] in
  applyTransferFunction true A L ∅ = Ret {[1%positive := Unknown]}
  ∧ applyTransferFunction true A L {[1%positive := Unknown]}
    = Ret {[1%positive := Unknown]}.
Proof.
  intros A L.
  assert (HM : applyTransferFunction true A L ∅ = Ret {[1%positive := Unknown]})
    by (vm_compute; reflexivity).
  split; [exact HM |].
  exact (applyTransferFunction_idempotent true A L ∅ _ HM).
Defined.

End block_transfer_extras.

(** ** The driver script *)

Section driver_script.

Lemma interleave_foldl {X} (base : list X) (repeat : X) : ∀ acc : list X,
  foldl (λ acc pair, acc ++ [pair.1; pair.2]) acc
        (zip (replicate (length base) repeat) base)
  = acc ++ (base ≫= λ b, [repeat; b]).
Proof.
  induction base as [| b base IH]; intros acc; simpl.
  - by rewrite app_nil_r.
  - rewrite IH. cbn [fst snd]. by rewrite <- app_assoc.
Qed.

(** X28: [interleave base repeat] puts [repeat] in front of every element of
    [base], in order: the result is twice as long as [base], holds
    [repeat] at every even index below its length and the elements of
    [base] at the odd ones. *)
Theorem interleave_spec {X} (base : list X) (repeat : X) :
  interleave base repeat = (base ≫= λ b, [repeat; b])
  ∧ length (interleave base repeat) = 2 * length base
  ∧ ∀ i, interleave base repeat !! (2 * i) = (λ _, repeat) <$> base !! i
         ∧ interleave base repeat !! (2 * i + 1) = base !! i.
Proof.
  assert (Hflat : interleave base repeat = (base ≫= λ b, [repeat; b])).
  { unfold interleave. by rewrite interleave_foldl. }
  rewrite Hflat. split; [reflexivity |]. clear Hflat. split.
  - induction base as [| b base IH]; [reflexivity |].
    cbn [mbind list_bind]. rewrite length_app, IH. simpl. lia.
  - induction base as [| b base IH]; intros i.
    + split; reflexivity.
    + destruct i as [| i].
      * split; reflexivity.
      * replace (2 * S i) with (S (S (2 * i))) by lia.
        replace (S (S (2 * i)) + 1) with (S (S (2 * i + 1))) by lia.
        apply (IH i).
Qed.

Lemma split_dash_dash_loop_spec (xs : list string) : ∀ extra_args rest,
  "--" ∉ xs →
  (split_dash_dash_loop extra_args (xs ++ "--" :: rest)
   = (extra_args ++ xs, "--" :: rest))
  ∧ split_dash_dash_loop extra_args xs = (extra_args ++ xs, []).
Proof.
  induction xs as [| x xs IH]; intros extra_args rest Hno; simpl.
  - rewrite app_nil_r. split; reflexivity.
  - apply not_elem_of_cons in Hno as [Hx Hxs].
    rewrite bool_decide_true by congruence.
    destruct (IH (extra_args ++ [x]) rest Hxs) as [-> ->].
    rewrite <- !app_assoc. split; reflexivity.
Qed.

(** X29: [split_dash_dash] cuts its argument at the first [--]: what precedes
    it and what follows it, the delimiter dropped and later [--] kept;
    without any [--] everything is in the first list. *)
Theorem split_dash_dash_at_first_delimiter (xs ys : list string) :
  "--" ∉ xs →
  split_dash_dash (xs ++ "--" :: ys) = (xs, ys)
  ∧ split_dash_dash xs = (xs, []).
Proof.
  intros Hno. destruct (split_dash_dash_loop_spec xs [] ys Hno) as [H1 H2].
  unfold split_dash_dash. split.
  - destruct (xs ++ "--" :: ys) eqn:Hargs.
    + by destruct xs.
    + rewrite H1. reflexivity.
  - destruct xs as [| x xs']; [reflexivity |]. rewrite H2. reflexivity.
Qed.

Lemma split_dash_dash_at_first_delimiter_witness :
  ("--" ∉ ["-O1"; "input"])
  ∧ split_dash_dash (["-O1"; "input"] ++ "--" :: ["--base"; "--"; "0x1000"])
    = (["-O1"; "input"], ["--base"; "--"; "0x1000"])
  ∧ split_dash_dash ["-O1"; "input"] = (["-O1"; "input"], []).
Proof.
  assert (Hno : "--" ∉ ["-O1"; "input"]).
  { intros Hin. apply elem_of_cons in Hin as [[=] | Hin].
    apply elem_of_cons in Hin as [[=] | Hin]. by apply elem_of_nil in Hin. }
  split; [exact Hno |].
  exact (split_dash_dash_at_first_delimiter _ _ Hno).
Defined.

Lemma hexlify_byte_shape (b : Byte.byte) :
  ∃ c1 c2, hexlify_byte b = String c1 (String c2 "").
Proof. destruct b; vm_compute; eauto. Qed.

Lemma unhexlify_hexlify_byte (b : Byte.byte) :
  unhexlify_byte (hexlify_byte b) = Strings.Byte.to_N b.
Proof. destruct b; vm_compute; reflexivity. Qed.

Lemma hexlify_byte_inj (b b' : Byte.byte) :
  hexlify_byte b = hexlify_byte b' → b = b'.
Proof.
  intros Heq. apply (f_equal unhexlify_byte) in Heq.
  rewrite !unhexlify_hexlify_byte in Heq.
  apply (f_equal Strings.Byte.of_N) in Heq.
  rewrite !Strings.Byte.of_to_N in Heq. congruence.
Qed.

Lemma read_at_one (content : list Byte.byte) (pos : nat) :
  read_at content pos 1
  = match content !! pos with Some x => [x] | None => [] end.
Proof.
  unfold read_at. destruct (content !! pos) as [x |] eqn:Hx.
  - rewrite (drop_S _ _ _ Hx). reflexivity.
  - rewrite drop_ge; [reflexivity | by apply lookup_ge_None].
Qed.

Lemma read_at_two (content : list Byte.byte) (pos : nat) :
  read_at content pos 2
  = match content !! pos with
    | Some x => x :: match content !! S pos with Some y => [y] | None => [] end
    | None => []
    end.
Proof.
  unfold read_at. destruct (content !! pos) as [x |] eqn:Hx.
  - rewrite (drop_S _ _ _ Hx). cbn [take]. f_equal.
    apply (read_at_one content (S pos)).
  - rewrite drop_ge; [reflexivity | by apply lookup_ge_None].
Qed.

(* The identifier is made of the bytes at offsets 5, 18 and 19, when the
   file is long enough to hold them. *)
Lemma architecture_id_bytes (content : list Byte.byte) :
  architecture_id content
  = hexlify (match content !! 5 with Some x => [x] | None => [] end)
    +:+ hexlify (match content !! 18 with
                 | Some x => x :: match content !! 19 with
                                  | Some y => [y]
                                  | None => []
                                  end
                 | None => []
                 end).
Proof. unfold architecture_id. by rewrite read_at_one, read_at_two. Qed.

Lemma architecture_of_id_length (arch_id name : string) :
  architecture_of_id arch_id = Some name → String.length arch_id = 6.
Proof.
  unfold architecture_of_id. repeat case_bool_decide; subst; (reflexivity || discriminate).
Qed.

Lemma architecture_of_id_inj (id1 id2 name : string) :
  architecture_of_id id1 = Some name →
  architecture_of_id id2 = Some name →
  id1 = id2.
Proof.
  unfold architecture_of_id. intros H1 H2.
  repeat case_bool_decide; subst; first [reflexivity | discriminate | congruence].
Qed.

Lemma string_app_empty_r (s : string) : s +:+ "" = s.
Proof.
  induction s as [| c s IH]; [reflexivity |].
  change (String c (s +:+ "") = String c s). by rewrite IH.
Qed.

Lemma architecture_id_three (content : list Byte.byte) :
  String.length (architecture_id content) = 6 →
  ∃ b5 b18 b19,
    content !! 5 = Some b5 ∧ content !! 18 = Some b18 ∧ content !! 19 = Some b19
    ∧ architecture_id content
      = hexlify_byte b5 +:+ hexlify_byte b18 +:+ hexlify_byte b19.
Proof.
  rewrite architecture_id_bytes.
  destruct (content !! 5) as [b5 |], (content !! 18) as [b18 |],
    (content !! 19) as [b19 |]; cbn [hexlify foldr].
  1: { intros _. exists b5, b18, b19. rewrite !string_app_empty_r. by repeat split. }
  all: repeat match goal with
              | |- context [hexlify_byte ?b] =>
                  let c1 := fresh "c" in let c2 := fresh "c" in
                  let Hb := fresh "Hb" in
                  destruct (hexlify_byte_shape b) as (c1 & c2 & Hb); rewrite Hb
              end;
       intros Hlen; cbv in Hlen; discriminate Hlen.
Qed.

(** X30: [get_architecture] looks at the bytes at offsets 5, 18 and 19 only: it
    names an architecture only for files of at least 20 bytes, and two
    files get the same name exactly when they agree on these three
    bytes. *)
Theorem get_architecture_by_three_bytes (content : list Byte.byte) (name : string) :
  get_architecture content = Some name →
  20 ≤ length content
  ∧ ∀ content' : list Byte.byte,
      get_architecture content' = Some name
      ↔ (content' !! 5 = content !! 5
         ∧ content' !! 18 = content !! 18
         ∧ content' !! 19 = content !! 19).
Proof.
  unfold get_architecture. intros Hname.
  destruct (architecture_id_three content (architecture_of_id_length _ _ Hname))
    as (b5 & b18 & b19 & H5 & H18 & H19 & Hid).
  split; [apply lookup_lt_Some in H19; lia |].
  intros content'. split.
  - intros Hname'.
    destruct (architecture_id_three content' (architecture_of_id_length _ _ Hname'))
      as (b5' & b18' & b19' & H5' & H18' & H19' & Hid').
    pose proof (architecture_of_id_inj _ _ _ Hname' Hname) as Heq.
    rewrite Hid, Hid' in Heq.
    destruct (hexlify_byte_shape b5) as (? & ? & E5),
      (hexlify_byte_shape b18) as (? & ? & E18),
      (hexlify_byte_shape b19) as (? & ? & E19),
      (hexlify_byte_shape b5') as (? & ? & E5'),
      (hexlify_byte_shape b18') as (? & ? & E18'),
      (hexlify_byte_shape b19') as (? & ? & E19').
    rewrite E5, E18, E19, E5', E18', E19' in Heq. cbn in Heq.
    injection Heq as -> -> -> -> -> ->.
    rewrite <- E5 in E5'. rewrite <- E18 in E18'. rewrite <- E19 in E19'.
    apply hexlify_byte_inj in E5', E18', E19'. subst.
    rewrite H5, H18, H19, H5', H18', H19'. by repeat split.
  - intros (E5 & E18 & E19).
    rewrite (architecture_id_bytes content'), E5, E18, E19.
    rewrite <- architecture_id_bytes. exact Hname.
Qed.

Lemma get_architecture_by_three_bytes_witness :
  let header := replicate 5 Byte.x00 ++ [Byte.x01] ++ replicate 12 Byte.x00
                ++ [Byte.x3e; Byte.x00] in
  get_architecture header = Some "x86_64"
  ∧ 20 ≤ length header
  ∧ (get_architecture (header ++ [Byte.xff]) = Some "x86_64"
     ↔ ((header ++ [Byte.xff]) !! 5 = header !! 5
        ∧ (header ++ [Byte.xff]) !! 18 = header !! 18
        ∧ (header ++ [Byte.xff]) !! 19 = header !! 19)).
Proof.
  intros header.
  assert (Hname : get_architecture header = Some "x86_64") by (vm_compute; reflexivity).
  split; [exact Hname |].
  destruct (get_architecture_by_three_bytes header "x86_64" Hname) as [Hlen Hiff].
  split; [exact Hlen | exact (Hiff (header ++ [Byte.xff]))].
Defined.

End driver_script.
